(** * glink: connection lifecycle manager and retry interceptor

    A shallow embedding of [connection.go], [connection_manager.go] and
    [interceptors.go].  Go pointers to [grpc.ClientConn] are handles (or nil),
    Go's [error] is [option error] (nil is [None]), the struct fields keep
    their names, and everything the package obtains from outside (the wall
    clock, [grpc.NewClient], the invoker of a call, the call's context, the
    choice [select] makes between two ready cases) is explicit: the clock and
    the bookkeeping of the gRPC library live in a [Runtime] value threaded
    through the methods, the rest are variables of the sections below. *)

From Stdlib Require Import ZArith NArith List Lia Bool String Relations.
Import ListNotations.
Open Scope Z_scope.

(** ** Package [time] *)

Module time.

(* A Duration is an int64 count of nanoseconds. *)
Definition Duration := Z.

(* A Time is an instant, counted in nanoseconds from the zero Time
   (January 1, year 1, 00:00 UTC), which is what an unset [time.Time] field
   holds. *)
Definition Time := Z.

Definition Millisecond : Duration := 1000000.
Definition Second : Duration := 1000 * Millisecond.

Definition minDuration : Duration := - 2 ^ 63.
Definition maxDuration : Duration := 2 ^ 63 - 1.

Definition zeroTime : Time := 0.

(* t.Sub(u): the duration t-u, or the largest (smallest) Duration when t-u
   does not fit. *)
Definition Sub (t u : Time) : Duration :=
  let d := t - u in
  if d <? minDuration then minDuration
  else if maxDuration <? d then maxDuration
  else d.

End time.

(** ** gRPC: handles, status codes, errors *)

(* The identity of a *grpc.ClientConn; a nil pointer is [None]. *)
Definition Handle := nat.

Inductive Code :=
| OK | Canceled | Unknown | InvalidArgument | DeadlineExceeded | NotFound
| AlreadyExists | PermissionDenied | ResourceExhausted | FailedPrecondition
| Aborted | OutOfRange | Unimplemented | Internal | Unavailable | DataLoss
| Unauthenticated.

Inductive error :=
| StatusErr (c : Code) (msg : string)   (* an error carrying a gRPC status *)
| CtxCanceled                           (* context.Canceled *)
| CtxDeadlineExceeded                   (* context.DeadlineExceeded *)
| DialErr (msg : string).               (* an error of grpc.NewClient *)

Definition Code_eqb (a b : Code) : bool :=
  match a, b with
  | OK, OK | Canceled, Canceled | Unknown, Unknown
  | InvalidArgument, InvalidArgument | DeadlineExceeded, DeadlineExceeded
  | NotFound, NotFound | AlreadyExists, AlreadyExists
  | PermissionDenied, PermissionDenied
  | ResourceExhausted, ResourceExhausted
  | FailedPrecondition, FailedPrecondition | Aborted, Aborted
  | OutOfRange, OutOfRange | Unimplemented, Unimplemented
  | Internal, Internal | Unavailable, Unavailable | DataLoss, DataLoss
  | Unauthenticated, Unauthenticated => true
  | _, _ => false
  end.

(* status.Code(err): OK for nil, the code of a status error, Unknown for
   any other error. *)
Definition status_Code (err : option error) : Code :=
  match err with
  | None => OK
  | Some (StatusErr c _) => c
  | Some _ => Unknown
  end.

(** ** The runtime outside the package *)

Record Runtime := mkRuntime {
  clock : time.Time;                    (* what time.Now() reads *)
  closed : list Handle;                 (* Close() calls that reached a handle, latest first *)
  sleepers : list (time.Time * Handle); (* goroutines asleep before closing a handle: wake-up time, handle *)
  dialed : nat;                         (* calls of grpc.NewClient so far; names the next fresh handle *)
  calls : list (option Handle)          (* connections the invoker was called with, latest first *)
}.

Definition set_clock (t : time.Time) (rt : Runtime) : Runtime :=
  mkRuntime t (closed rt) (sleepers rt) (dialed rt) (calls rt).

Definition set_closed (l : list Handle) (rt : Runtime) : Runtime :=
  mkRuntime (clock rt) l (sleepers rt) (dialed rt) (calls rt).

Definition set_sleepers (l : list (time.Time * Handle)) (rt : Runtime) : Runtime :=
  mkRuntime (clock rt) (closed rt) l (dialed rt) (calls rt).

Definition set_dialed (n : nat) (rt : Runtime) : Runtime :=
  mkRuntime (clock rt) (closed rt) (sleepers rt) n (calls rt).

Definition set_calls (l : list (option Handle)) (rt : Runtime) : Runtime :=
  mkRuntime (clock rt) (closed rt) (sleepers rt) (dialed rt) l.

(* Time passes. *)
Definition tick (d : time.Duration) (rt : Runtime) : Runtime :=
  set_clock (clock rt + d) rt.

(* A call that either returns or panics. *)
Inductive outcome (A : Type) :=
| Ret (a : A)
| Panic.
Arguments Ret {A} a.
Arguments Panic {A}.

(** ** connection.go *)

Definition gracePeriod : time.Duration := 10 * time.Second.

Record Connection := mkConnection {
  id : string;
  connection : option Handle;
  lastConnection : time.Time;
  maxDuration : time.Duration
}.

Definition NewConnection (id : string) : Connection :=
  mkConnection id None time.zeroTime 0.

(* func (c *Connection) Connection() *grpc.ClientConn *)
Definition Connection_Connection (c : Connection) : option Handle :=
  connection c.

(* func (c *Connection) Close(): the method call c.connection.Close() on a
   nil *grpc.ClientConn reads through the nil receiver. *)
Definition Connection_Close (c : Connection) (rt : Runtime)
  : outcome (Connection * Runtime) :=
  match connection c with
  | None => Panic
  | Some h =>
      Ret (mkConnection (id c) None (lastConnection c) (maxDuration c),
           set_closed (h :: closed rt) rt)
  end.

(* func (c *Connection) SetConnection(conn, maxDuration): the goroutine
   started for a non-nil oldConn sleeps gracePeriod and then closes it. *)
Definition SetConnection (conn : option Handle) (maxDuration : time.Duration)
  (c : Connection) (rt : Runtime) : Connection * Runtime :=
  let oldConn := connection c in
  let c' := mkConnection (id c) conn (clock rt) maxDuration in
  match oldConn with
  | Some old => (c', set_sleepers ((clock rt + gracePeriod, old) :: sleepers rt) rt)
  | None => (c', rt)
  end.

(* func (c *Connection) IsExpired() bool *)
Definition IsExpired (c : Connection) (rt : Runtime) : bool :=
  maxDuration c <=? time.Sub (clock rt) (lastConnection c).

(* The scheduler lets a goroutine whose sleep is over run: it closes its
   handle and ends. *)
Inductive wakes : Runtime -> Runtime -> Prop :=
| wakes_sleeper rt l1 t h l2 :
    sleepers rt = l1 ++ (t, h) :: l2 ->
    t <= clock rt ->
    wakes rt (set_closed (h :: closed rt) (set_sleepers (l1 ++ l2) rt)).

(** ** connection_manager.go *)

Definition minConnectionAge : time.Duration := 15 * time.Second.

Record ConnectionManager := mkConnectionManager {
  connection1 : Connection;
  maxConnectionAge : time.Duration;
  maxRetries : Z;
  serviceAddress : string
}.

Definition set_connection1 (c : Connection) (cm : ConnectionManager)
  : ConnectionManager :=
  mkConnectionManager c (maxConnectionAge cm) (maxRetries cm) (serviceAddress cm).

(* int(u) for a uint u, on a 64-bit platform. *)
Definition int_of_uint (u : Z) : Z :=
  if u <? 2 ^ 63 then u else u - 2 ^ 64.

(* func New(serviceAddress, maxConnectionAge, maxRetries, logger): the dial
   options are fixed and the logger decides nothing. *)
Definition New (serviceAddress : string) (maxConnectionAge : time.Duration)
  (maxRetries : Z) (logger : bool) : ConnectionManager :=
  let maxConnectionAge :=
    if maxConnectionAge <? minConnectionAge then minConnectionAge
    else maxConnectionAge in
  mkConnectionManager (NewConnection serviceAddress) maxConnectionAge
    (int_of_uint maxRetries) serviceAddress.

Section Manager.

(* grpc.NewClient(cm.serviceAddress, cm.dialOpts...): the error of the k-th
   call, [None] when it yields a connection, which is then the fresh
   handle k. *)
Variable NewClient : nat -> option error.

(* func (cm *ConnectionManager) connect() error *)
Definition connect (cm : ConnectionManager) (rt : Runtime)
  : option error * ConnectionManager * Runtime :=
  let k := dialed rt in
  let rt := set_dialed (S k) rt in
  match NewClient k with
  | Some grpcErr => (Some grpcErr, cm, rt)
  | None =>
      let (c, rt) := SetConnection (Some k) (maxConnectionAge cm) (connection1 cm) rt in
      (None, set_connection1 c cm, rt)
  end.

(* func (cm *ConnectionManager) Close() *)
Definition ConnectionManager_Close (cm : ConnectionManager) (rt : Runtime)
  : outcome (ConnectionManager * Runtime) :=
  match Connection_Close (connection1 cm) rt with
  | Panic => Panic
  | Ret (c, rt) => Ret (set_connection1 c cm, rt)
  end.

(* func (cm *ConnectionManager) GetConnection(), returning the connection
   and an error *)
Definition GetConnection (cm : ConnectionManager) (rt : Runtime)
  : (option Handle * option error) * ConnectionManager * Runtime :=
  if IsExpired (connection1 cm) rt then
    let '(err, cm, rt) := connect cm rt in
    ((Connection_Connection (connection1 cm), err), cm, rt)
  else ((Connection_Connection (connection1 cm), None), cm, rt).

(* func (cm *ConnectionManager) TryReconnect(), returning the connection
   and an error *)
Definition TryReconnect (cm : ConnectionManager) (rt : Runtime)
  : (option Handle * option error) * ConnectionManager * Runtime :=
  if minConnectionAge <=? time.Sub (clock rt) (lastConnection (connection1 cm)) then
    let '(err, cm, rt) := connect cm rt in
    match err with
    | Some _ => ((Connection_Connection (connection1 cm), err), cm, rt)
    | None => ((Connection_Connection (connection1 cm), err), cm, rt)
    end
  else ((Connection_Connection (connection1 cm), None), cm, rt).

(* func (cm *ConnectionManager) ShouldReconnect() bool *)
Definition ShouldReconnect (cm : ConnectionManager) (rt : Runtime) : bool :=
  IsExpired (connection1 cm) rt.

End Manager.

(* func (cm *ConnectionManager) backoffDuration(attempt int) time.Duration:
   float64(100ms) * math.Pow(2, attempt) is the exact product 10^8 * 2^attempt
   for the attempts 0, 1, 2, ... of the retry loop, and time.Duration(delay)
   is that integer while it fits an int64 (up to attempt 36).  Beyond, the Go
   specification leaves the result of the conversion to the platform:
   [convOverflow]. *)
Definition backoffDuration (convOverflow : time.Duration)
  (cm : ConnectionManager) (attempt : Z) : time.Duration :=
  let baseRetryDelay := 100 * time.Millisecond in
  let delay := baseRetryDelay * 2 ^ attempt in
  if delay <=? time.maxDuration then delay else convOverflow.

(** ** interceptors.go *)

(* A context.Context: the instant its Done channel is closed, if ever, and
   the error Err() reports from then on. *)
Record Context := mkContext {
  doneAt : option time.Time;
  cause : error
}.

Definition ctx_Done (ctx : Context) (rt : Runtime) : bool :=
  match doneAt ctx with
  | Some t => t <=? clock rt
  | None => false
  end.

Definition ctx_Err (ctx : Context) (rt : Runtime) : option error :=
  if ctx_Done ctx rt then Some (cause ctx) else None.

(* Which case of the backoff select ran. *)
Inductive fired := TimerFired | DoneFired.

(* How one pass through the body of the for loop ends. *)
Inductive flow :=
| Returned (err : option error)  (* a return statement ran *)
| Next (err : option error).     (* the post statement attempt++ is next, err as the body left it *)

(* What a call meets outside the package. *)
Record World := mkWorld {
  (* grpc.NewClient, as in connect() *)
  NewClient : nat -> option error;
  (* invoker(ctx, method, req, reply, cc, opts...): how long the k-th call
     of the invoker takes and the error it returns *)
  invoker : nat -> option Handle -> N * option error;
  (* the context of the call *)
  ctx : Context;
  (* the case the backoff select of an attempt runs when both of its
     channels are ready at once *)
  pick : Z -> fired;
  (* see backoffDuration *)
  convOverflow : time.Duration
}.

Section Interceptor.

Variable W : World.

Definition invoke (cc : option Handle) (rt : Runtime) : option error * Runtime :=
  let (d, err) := invoker W (List.length (calls rt)) cc in
  (err, set_calls (cc :: calls rt) (tick (Z.of_N d) rt)).

(* select {
   case <-time.After(d):
   case <-ctx.Done(): return ctx.Err()
   }
   entered when the clock reads [clock rt]: the timer's channel is ready
   from clock rt + d on (at once when d <= 0), Done from [doneAt ctx] on;
   the case that is ready first runs. *)
Definition select_After_Done (attempt : Z) (d : time.Duration) (rt : Runtime)
  : fired * Runtime :=
  let timer := clock rt + Z.max 0 d in
  match doneAt (ctx W) with
  | None => (TimerFired, set_clock timer rt)
  | Some t =>
      let done := Z.max (clock rt) t in
      if done <? timer then (DoneFired, set_clock done rt)
      else if timer <? done then (TimerFired, set_clock timer rt)
      else (pick W attempt, set_clock timer rt)
  end.

(* The body of the for loop of retryInterceptor.  A break in the default
   clause leaves the select statement, not the loop. *)
Definition iteration (cc : option Handle) (attempt : Z) (err : option error)
  (cm : ConnectionManager) (rt : Runtime) : flow * ConnectionManager * Runtime :=
  if ctx_Done (ctx W) rt then (Returned (ctx_Err (ctx W) rt), cm, rt)
  else
    let newConn : option Handle := None in
    let (err, rt) :=
      match newConn with
      | None => invoke cc rt
      | Some _ => invoke newConn rt
      end in
    match err with
    | None => (Returned None, cm, rt)
    | Some _ =>
        if Code_eqb (status_Code err) DeadlineExceeded
           || Code_eqb (status_Code err) Unavailable
        then
          match select_After_Done attempt (backoffDuration (convOverflow W) cm attempt) rt with
          | (DoneFired, rt) => (Returned (ctx_Err (ctx W) rt), cm, rt)
          | (TimerFired, rt) =>
              let '((newConn, _), cm, rt) := TryReconnect (NewClient W) cm rt in
              (Next err, cm, rt)
          end
        else (Next err, cm, rt)
    end.

(* for attempt := 0; attempt < cm.maxRetries; attempt++ { ... }; return err.
   [None] when the fuel runs out before the loop ends. *)
Fixpoint loop (fuel : nat) (cc : option Handle) (attempt : Z) (err : option error)
  (cm : ConnectionManager) (rt : Runtime)
  : option (option error * ConnectionManager * Runtime) :=
  if attempt <? maxRetries cm then
    match fuel with
    | O => None
    | S fuel =>
        match iteration cc attempt err cm rt with
        | (Returned r, cm, rt) => Some (r, cm, rt)
        | (Next err, cm, rt) => loop fuel cc (attempt + 1) err cm rt
        end
    end
  else Some (err, cm, rt).

(* The function retryInterceptor(cm) returns, called on the connection cc. *)
Definition retryInterceptor (cm : ConnectionManager) (cc : option Handle)
  (rt : Runtime) : option (option error * ConnectionManager * Runtime) :=
  loop (Z.to_nat (maxRetries cm)) cc 0 None cm rt.

End Interceptor.

(** ** The manager at work *)

Section System.

Variable NewClient : nat -> option error.

(* What can happen to a manager and the runtime around it: time passes, a
   sleeping goroutine wakes, the invoker of a call is called on some
   connection, or one of the manager's methods runs. *)
Inductive step : ConnectionManager * Runtime -> ConnectionManager * Runtime -> Prop :=
| step_tick cm rt d :
    0 <= d -> step (cm, rt) (cm, tick d rt)
| step_wakes cm rt rt' :
    wakes rt rt' -> step (cm, rt) (cm, rt')
| step_invoker cm rt cc :
    step (cm, rt) (cm, set_calls (cc :: calls rt) rt)
| step_GetConnection cm rt r cm' rt' :
    GetConnection NewClient cm rt = (r, cm', rt') -> step (cm, rt) (cm', rt')
| step_TryReconnect cm rt r cm' rt' :
    TryReconnect NewClient cm rt = (r, cm', rt') -> step (cm, rt) (cm', rt')
| step_Close cm rt cm' rt' :
    ConnectionManager_Close cm rt = Ret (cm', rt') -> step (cm, rt) (cm', rt').

Definition steps := clos_refl_trans_1n _ step.

End System.

(* A runtime in which nothing has happened yet. *)
Definition boot (t : time.Time) : Runtime := mkRuntime t [] [] 0%nat [].

(** ** Vocabulary of the properties *)

(* A transient call error: its status code is DeadlineExceeded or
   Unavailable. *)
Definition transient (e : error) : Prop :=
  status_Code (Some e) = DeadlineExceeded \/ status_Code (Some e) = Unavailable.

(* The runtime a pass through the loop body is in once its invocation has
   returned after [dur]: the backoff wait, if any, starts there. *)
Definition invoked (cc : option Handle) (dur : N) (rt : Runtime) : Runtime :=
  set_calls (cc :: calls rt) (tick (Z.of_N dur) rt).

(* The handle a manager holds. *)
Definition active (cm : ConnectionManager) : option Handle :=
  connection (connection1 cm).

(* Handles are named in the order they were dialed, and the handle held is
   neither closed nor awaited by a goroutine that will close it. *)
Definition well_formed (cm : ConnectionManager) (rt : Runtime) : Prop :=
  (forall h, active cm = Some h ->
     (h < dialed rt)%nat /\ ~ In h (closed rt) /\ forall t, ~ In (t, h) (sleepers rt))
  /\ (forall t h, In (t, h) (sleepers rt) -> (h < dialed rt)%nat)
  /\ (forall h, In h (closed rt) -> (h < dialed rt)%nat).

(* The handle [old] was replaced at [since] and has been left alone: it is
   not held, not closed, and a goroutine that will close it sleeps at least
   until the grace period is over. *)
Definition superseded (old : Handle) (since : time.Time)
  (cm : ConnectionManager) (rt : Runtime) : Prop :=
  active cm <> Some old
  /\ ~ In old (closed rt)
  /\ (old < dialed rt)%nat
  /\ (forall t, In (t, old) (sleepers rt) -> since + gracePeriod <= t).

(* No handle is closed twice, no handle is awaited by two goroutines, and
   no goroutine waits to close a handle that is closed already. *)
Definition closes_once (rt : Runtime) : Prop :=
  NoDup (closed rt)
  /\ NoDup (map snd (sleepers rt))
  /\ (forall t h, In (t, h) (sleepers rt) -> ~ In h (closed rt)).

(** ** A manager at work, for the examples *)

Definition unavailable : error := StatusErr Unavailable "connection refused"%string.
Definition invalid : error := StatusErr InvalidArgument "bad request"%string.
Definition refused : error := DialErr "no such host"%string.

(* New("svc", 5s, retries, false) after a first GetConnection() that
   established handle 0 at [started]. *)
Definition started : time.Time := 63900000000 * time.Second.

Definition manager (retries : Z) : ConnectionManager :=
  snd (fst (GetConnection (fun _ => None)
              (New "svc"%string (5 * time.Second) retries false) (boot started))).

(* The runtime 16 seconds after that GetConnection(). *)
Definition later : Runtime :=
  tick (16 * time.Second)
    (snd (GetConnection (fun _ => None)
            (New "svc"%string (5 * time.Second) 3 false) (boot started))).

(* A context that is never cancelled. *)
Definition background : Context := mkContext None CtxCanceled.

(* A world in which every dial ends as [dial] says, every invocation takes
   5ns and fails with [e], and the context is [c]. *)
Definition failing (dial : option error) (e : error) (c : Context) : World :=
  mkWorld (fun _ => dial) (fun _ _ => (5%N, Some e)) c (fun _ => TimerFired) 0.

(** * Properties *)

(** ** Durations *)

(* Comparing the saturated difference with an int64 bound is comparing the
   difference itself, as long as the clock has not run backwards. *)
Lemma Sub_ge_iff (t u : time.Time) (m : time.Duration) :
  m <= time.maxDuration -> u <= t ->
  (m <= time.Sub t u <-> m <= t - u).
Proof.
  intros Hm Hle. unfold time.Sub.
  assert (time.minDuration < 0) by (vm_compute; reflexivity).
  destruct (Z.ltb_spec (t - u) time.minDuration); [lia|].
  destruct (Z.ltb_spec time.maxDuration (t - u)); lia.
Qed.

Lemma Sub_lt_iff (t u : time.Time) (m : time.Duration) :
  time.minDuration < m <= time.maxDuration ->
  (time.Sub t u < m <-> t - u < m).
Proof.
  intros Hm. unfold time.Sub.
  destruct (Z.ltb_spec (t - u) time.minDuration); [lia|].
  destruct (Z.ltb_spec time.maxDuration (t - u)); lia.
Qed.

Lemma minConnectionAge_int64 :
  time.minDuration < minConnectionAge <= time.maxDuration.
Proof. vm_compute. split; [reflexivity | discriminate]. Qed.

(* The backoff schedule: 100ms * 2^attempt, zero-based, as far as an int64
   holds it. *)
Lemma backoffDuration_exact o cm attempt :
  0 <= attempt <= 36 ->
  backoffDuration o cm attempt = 100 * time.Millisecond * 2 ^ attempt
  /\ 0 < backoffDuration o cm attempt.
Proof.
  intros H. unfold backoffDuration. cbv zeta.
  assert (Hlo : 0 < 2 ^ attempt) by (apply Z.pow_pos_nonneg; lia).
  assert (Hhi : 2 ^ attempt <= 2 ^ 36) by (apply Z.pow_le_mono_r; lia).
  assert (Hmax : 100 * time.Millisecond * 2 ^ 36 <= time.maxDuration)
    by (vm_compute; discriminate).
  assert (Hbase : 100 * time.Millisecond = 100000000) by reflexivity.
  rewrite Hbase in *.
  destruct (Z.leb_spec (100000000 * 2 ^ attempt) time.maxDuration); [lia|].
  change (2 ^ 36) with 68719476736 in *. lia.
Qed.

(** ** Connection *)

Lemma SetConnection_fst conn maxAge c rt :
  fst (SetConnection conn maxAge c rt) = mkConnection (id c) conn (clock rt) maxAge.
Proof. unfold SetConnection. destruct (connection c); reflexivity. Qed.

Lemma SetConnection_clock conn maxAge c rt :
  clock (snd (SetConnection conn maxAge c rt)) = clock rt.
Proof. unfold SetConnection. destruct (connection c); reflexivity. Qed.

(** C7: IsExpired() is true exactly when now - lastConnection >= maxDuration
    (for a clock that has not run backwards and an int64 maxDuration); right
    after SetConnection with a positive maxDuration it is false; once d has
    elapsed after that swap it is true exactly when d has reached maxDuration;
    and a Connection on which SetConnection never ran reports expired. *)
Theorem IsExpired_spec (c : Connection) (rt : Runtime) (conn : option Handle)
  (maxAge d : time.Duration) (name : string) :
  maxDuration c <= time.maxDuration ->
  maxAge <= time.maxDuration ->
  lastConnection c <= clock rt ->
  time.zeroTime <= clock rt ->
  (IsExpired c rt = true <-> maxDuration c <= clock rt - lastConnection c)
  /\ (0 < maxAge ->
      IsExpired (fst (SetConnection conn maxAge c rt))
                (snd (SetConnection conn maxAge c rt)) = false)
  /\ (0 <= d ->
      (IsExpired (fst (SetConnection conn maxAge c rt))
                 (tick d (snd (SetConnection conn maxAge c rt))) = true
       <-> maxAge <= d))
  /\ IsExpired (NewConnection name) rt = true.
Proof.
  intros Hc Hm Hlast Hzero.
  assert (Hafter : forall e, 0 <= e ->
            (IsExpired (fst (SetConnection conn maxAge c rt))
                       (tick e (snd (SetConnection conn maxAge c rt))) = true
             <-> maxAge <= e)).
  { intros e He. unfold IsExpired, tick.
    rewrite SetConnection_fst. simpl. rewrite SetConnection_clock.
    rewrite Z.leb_le, Sub_ge_iff by lia. lia. }
  split; [|split; [|split]].
  - unfold IsExpired. rewrite Z.leb_le. apply Sub_ge_iff; assumption.
  - intros Hpos. apply not_true_is_false. intros Hexp.
    assert (Hnow : tick 0 (snd (SetConnection conn maxAge c rt))
                   = snd (SetConnection conn maxAge c rt)).
    { unfold tick, set_clock. rewrite Z.add_0_r.
      destruct (snd (SetConnection conn maxAge c rt)); reflexivity. }
    rewrite <- Hnow in Hexp. apply Hafter in Hexp; lia.
  - apply Hafter.
  - unfold IsExpired, NewConnection. simpl.
    apply Z.leb_le. apply Sub_ge_iff; unfold time.zeroTime in *; try lia.
    vm_compute. discriminate.
Qed.

(** C10: Connection.Close() panics exactly when no handle is held, and so
    does ConnectionManager.Close(); that is the case before any SetConnection
    and again after a Close that returned. *)
Theorem Close_panics_without_handle (c : Connection) (cm : ConnectionManager) (rt : Runtime)
  (name : string) (age : time.Duration) (retries : Z) (logger : bool) :
  (Connection_Close c rt = Panic <-> connection c = None)
  /\ (ConnectionManager_Close cm rt = Panic <-> connection (connection1 cm) = None)
  /\ Connection_Close (NewConnection name) rt = Panic
  /\ ConnectionManager_Close (New name age retries logger) rt = Panic
  /\ (forall c' rt', Connection_Close c rt = Ret (c', rt') ->
        forall rt'', Connection_Close c' rt'' = Panic)
  /\ (forall cm' rt', ConnectionManager_Close cm rt = Ret (cm', rt') ->
        forall rt'', ConnectionManager_Close cm' rt'' = Panic).
Proof.
  unfold ConnectionManager_Close, Connection_Close.
  split; [|split; [|split; [|split; [|split]]]].
  - destruct (connection c); split; congruence.
  - destruct (connection (connection1 cm)); split; congruence.
  - reflexivity.
  - reflexivity.
  - intros c' rt' H rt''. destruct (connection c); [|discriminate].
    injection H as <- _. reflexivity.
  - intros cm' rt' H rt''. destruct (connection (connection1 cm)); [|discriminate].
    injection H as <- _. reflexivity.
Qed.

(** ** ConnectionManager *)

Section ManagerFacts.

Variable NewClient : nat -> option error.

Lemma connect_fails cm rt grpcErr :
  NewClient (dialed rt) = Some grpcErr ->
  connect NewClient cm rt = (Some grpcErr, cm, set_dialed (S (dialed rt)) rt).
Proof. intros H. unfold connect. rewrite H. reflexivity. Qed.

Lemma connect_maxRetries cm rt :
  maxRetries (snd (fst (connect NewClient cm rt))) = maxRetries cm.
Proof.
  unfold connect. destruct (NewClient (dialed rt)); [reflexivity|].
  destruct (SetConnection _ _ _ _); reflexivity.
Qed.

Lemma connect_calls cm rt :
  calls (snd (connect NewClient cm rt)) = calls rt.
Proof.
  unfold connect, SetConnection.
  destruct (NewClient (dialed rt)); [reflexivity|].
  destruct (connection (connection1 cm)); reflexivity.
Qed.

Lemma TryReconnect_maxRetries cm rt :
  maxRetries (snd (fst (TryReconnect NewClient cm rt))) = maxRetries cm.
Proof.
  unfold TryReconnect.
  destruct (minConnectionAge <=? _); [|reflexivity].
  pose proof (connect_maxRetries cm rt) as H.
  destruct (connect NewClient cm rt) as [[[e|] cm'] rt']; exact H.
Qed.

Lemma TryReconnect_calls cm rt :
  calls (snd (TryReconnect NewClient cm rt)) = calls rt.
Proof.
  unfold TryReconnect.
  destruct (minConnectionAge <=? _); [|reflexivity].
  pose proof (connect_calls cm rt) as H.
  destruct (connect NewClient cm rt) as [[[e|] cm'] rt']; exact H.
Qed.

(** C6: while less than minConnectionAge has elapsed since lastConnection,
    TryReconnect() dials nothing, changes nothing and returns the handle
    held, with a nil error; so a second call, made d later and still inside
    that window, returns the same handle. *)
Theorem TryReconnect_throttled (cm : ConnectionManager) (rt : Runtime)
  (d : time.Duration) :
  clock rt - lastConnection (connection1 cm) < minConnectionAge ->
  TryReconnect NewClient cm rt = ((connection (connection1 cm), None), cm, rt)
  /\ (0 <= d ->
      clock rt + d - lastConnection (connection1 cm) < minConnectionAge ->
      forall r1 cm1 rt1 r2 cm2 rt2,
        TryReconnect NewClient cm rt = (r1, cm1, rt1) ->
        TryReconnect NewClient cm1 (tick d rt1) = (r2, cm2, rt2) ->
        fst r2 = fst r1 /\ fst r1 = connection (connection1 cm)
        /\ dialed rt2 = dialed rt).
Proof.
  assert (Hno : forall cm rt,
            clock rt - lastConnection (connection1 cm) < minConnectionAge ->
            TryReconnect NewClient cm rt
            = ((connection (connection1 cm), None), cm, rt)).
  { clear. intros cm rt H. unfold TryReconnect.
    apply (Sub_lt_iff _ _ _ minConnectionAge_int64) in H.
    destruct (Z.leb_spec minConnectionAge
                (time.Sub (clock rt) (lastConnection (connection1 cm)))); [lia|].
    reflexivity. }
  intros Hwin. split; [apply Hno; assumption|].
  intros Hd Hwin2 r1 cm1 rt1 r2 cm2 rt2 H1 H2.
  rewrite (Hno _ _ Hwin) in H1. injection H1 as <- <- <-.
  rewrite Hno in H2 by exact Hwin2.
  injection H2 as <- <- <-. auto.
Qed.

(** C8: when grpc.NewClient fails, connect() returns its error and leaves
    the manager as it was, handle, lastConnection and maxDuration included;
    GetConnection(), which dials only when the connection is expired,
    returns that error next to the handle held before, and the runtime has
    only counted one more dial. *)
Theorem establishment_failure_keeps_state (cm : ConnectionManager)
  (rt : Runtime) (grpcErr : error) :
  NewClient (dialed rt) = Some grpcErr ->
  connect NewClient cm rt = (Some grpcErr, cm, set_dialed (S (dialed rt)) rt)
  /\ (IsExpired (connection1 cm) rt = true ->
      GetConnection NewClient cm rt
      = ((connection (connection1 cm), Some grpcErr), cm,
         set_dialed (S (dialed rt)) rt))
  /\ (IsExpired (connection1 cm) rt = false ->
      GetConnection NewClient cm rt = ((connection (connection1 cm), None), cm, rt)).
Proof.
  intros Hfail. split; [apply connect_fails; assumption|].
  unfold GetConnection. split; intros Hexp; rewrite Hexp.
  - rewrite (connect_fails _ _ _ Hfail). reflexivity.
  - reflexivity.
Qed.

End ManagerFacts.

(** ** The retry interceptor *)

Lemma Code_eqb_eq (a b : Code) : Code_eqb a b = true <-> a = b.
Proof. destruct a, b; simpl; split; intros H; congruence. Qed.

Lemma transient_test (e : error) :
  Code_eqb (status_Code (Some e)) DeadlineExceeded
  || Code_eqb (status_Code (Some e)) Unavailable = true <-> transient e.
Proof. unfold transient. rewrite orb_true_iff, !Code_eqb_eq. tauto. Qed.

Lemma not_transient_test (e : error) :
  ~ transient e ->
  Code_eqb (status_Code (Some e)) DeadlineExceeded
  || Code_eqb (status_Code (Some e)) Unavailable = false.
Proof.
  intros H. apply not_true_is_false. rewrite transient_test. exact H.
Qed.

Lemma repeat_snoc {A} (x : A) (n : nat) (l : list A) :
  repeat x n ++ x :: l = repeat x (S n) ++ l.
Proof. induction n as [|n IH]; simpl; [reflexivity|]. f_equal. exact IH. Qed.

Section InterceptorFacts.

Variable W : World.

Lemma invoke_eq cc rt dur err :
  invoker W (List.length (calls rt)) cc = (dur, err) ->
  invoke W cc rt = (err, invoked cc dur rt).
Proof. intros H. unfold invoke. rewrite H. reflexivity. Qed.

Lemma iteration_done cc attempt err cm rt :
  ctx_Done (ctx W) rt = true ->
  iteration W cc attempt err cm rt = (Returned (Some (cause (ctx W))), cm, rt).
Proof.
  intros H. unfold iteration, ctx_Err. rewrite H. reflexivity.
Qed.

Lemma iteration_success cc attempt err cm rt dur :
  ctx_Done (ctx W) rt = false ->
  invoker W (List.length (calls rt)) cc = (dur, None) ->
  iteration W cc attempt err cm rt = (Returned None, cm, invoked cc dur rt).
Proof.
  intros Hd Hi. unfold iteration.
  rewrite Hd, (invoke_eq _ _ _ _ Hi). reflexivity.
Qed.

Lemma iteration_permanent cc attempt err cm rt dur e :
  ctx_Done (ctx W) rt = false ->
  invoker W (List.length (calls rt)) cc = (dur, Some e) ->
  ~ transient e ->
  iteration W cc attempt err cm rt = (Next (Some e), cm, invoked cc dur rt).
Proof.
  intros Hd Hi Ht. unfold iteration.
  rewrite Hd, (invoke_eq _ _ _ _ Hi), (not_transient_test _ Ht). reflexivity.
Qed.

Lemma iteration_cancelled_wait cc attempt err cm rt dur e rt' :
  ctx_Done (ctx W) rt = false ->
  invoker W (List.length (calls rt)) cc = (dur, Some e) ->
  transient e ->
  select_After_Done W attempt (backoffDuration (convOverflow W) cm attempt)
    (invoked cc dur rt) = (DoneFired, rt') ->
  iteration W cc attempt err cm rt = (Returned (ctx_Err (ctx W) rt'), cm, rt').
Proof.
  intros Hd Hi Ht Hs. unfold iteration.
  rewrite Hd, (invoke_eq _ _ _ _ Hi).
  apply transient_test in Ht. rewrite Ht.
  rewrite Hs. reflexivity.
Qed.

Lemma iteration_retried cc attempt err cm rt dur e rt' :
  ctx_Done (ctx W) rt = false ->
  invoker W (List.length (calls rt)) cc = (dur, Some e) ->
  transient e ->
  select_After_Done W attempt (backoffDuration (convOverflow W) cm attempt)
    (invoked cc dur rt) = (TimerFired, rt') ->
  iteration W cc attempt err cm rt
  = (Next (Some e), snd (fst (TryReconnect (NewClient W) cm rt')),
     snd (TryReconnect (NewClient W) cm rt')).
Proof.
  intros Hd Hi Ht Hs. unfold iteration.
  rewrite Hd, (invoke_eq _ _ _ _ Hi).
  apply transient_test in Ht. rewrite Ht.
  rewrite Hs.
  destruct (TryReconnect (NewClient W) cm rt') as [[[newConn e'] cm'] rt'']. reflexivity.
Qed.

Lemma select_calls attempt d rt :
  calls (snd (select_After_Done W attempt d rt)) = calls rt.
Proof.
  unfold select_After_Done.
  destruct (doneAt (ctx W)); [|reflexivity].
  destruct (_ <? _); [reflexivity|]. destruct (_ <? _); reflexivity.
Qed.

Lemma select_never_done attempt d rt :
  doneAt (ctx W) = None ->
  select_After_Done W attempt d rt = (TimerFired, set_clock (clock rt + Z.max 0 d) rt).
Proof.
  intros H. unfold select_After_Done.
  rewrite H. reflexivity.
Qed.

(* Done is ready strictly before the timer: its case runs, when it is ready. *)
Lemma select_done_first attempt d rt t :
  doneAt (ctx W) = Some t ->
  Z.max (clock rt) t < clock rt + Z.max 0 d ->
  select_After_Done W attempt d rt = (DoneFired, set_clock (Z.max (clock rt) t) rt).
Proof.
  intros H Hlt. unfold select_After_Done.
  rewrite H. cbv zeta.
  destruct (Z.ltb_spec (Z.max (clock rt) t) (clock rt + Z.max 0 d)); [reflexivity|lia].
Qed.

(* One pass through the body leaves cm.maxRetries alone. *)
Lemma iteration_maxRetries cc attempt err cm rt :
  maxRetries (snd (fst (iteration W cc attempt err cm rt))) = maxRetries cm.
Proof.
  unfold iteration.
  destruct (ctx_Done (ctx W) rt); [reflexivity|].
  destruct (invoke W cc rt) as [[e|] rt1]; [|reflexivity].
  destruct (_ || _); [|reflexivity].
  destruct (select_After_Done _ _ _ _) as [[|] rt2]; [|reflexivity].
  pose proof (TryReconnect_maxRetries (NewClient W) cm rt2) as H.
  destruct (TryReconnect (NewClient W) cm rt2) as [[[newConn e'] cm'] rt3]. exact H.
Qed.

(* The loop ends: the fuel retryInterceptor gives it is enough, from any
   attempt on. *)
Lemma loop_total fuel cc attempt err cm rt :
  (Z.to_nat (maxRetries cm - attempt) <= fuel)%nat ->
  exists r, loop W fuel cc attempt err cm rt = Some r.
Proof.
  revert attempt err cm rt.
  induction fuel as [|fuel IH]; intros attempt err cm rt Hfuel;
    simpl.
  - destruct (Z.ltb_spec attempt (maxRetries cm)); [lia|eauto].
  - destruct (Z.ltb_spec attempt (maxRetries cm)); [|eauto].
    pose proof (iteration_maxRetries cc attempt err cm rt) as Hm.
    destruct (iteration _ _ _ _ _ _) as [[[r|err'] cm'] rt'];
      [eauto|].
    simpl in Hm. apply IH. rewrite Hm. lia.
Qed.

Lemma retryInterceptor_total cm cc rt :
  exists r, retryInterceptor W cm cc rt = Some r.
Proof.
  apply loop_total. rewrite Z.sub_0_r. apply Nat.le_refl.
Qed.

(* A pass whose invocation fails, in a call that is never cancelled, ends
   at the post statement, transient error or not. *)
Lemma iteration_failing cc attempt err cm rt dur e :
  doneAt (ctx W) = None ->
  invoker W (List.length (calls rt)) cc = (dur, Some e) ->
  exists cm' rt',
    iteration W cc attempt err cm rt = (Next (Some e), cm', rt')
    /\ calls rt' = cc :: calls rt
    /\ maxRetries cm' = maxRetries cm.
Proof.
  intros Hnever Hi.
  assert (Hd : ctx_Done (ctx W) rt = false) by (unfold ctx_Done; rewrite Hnever; reflexivity).
  unfold iteration. rewrite Hd, (invoke_eq _ _ _ _ Hi).
  destruct (_ || _).
  - rewrite select_never_done by assumption.
    pose proof (TryReconnect_calls (NewClient W) cm
                  (set_clock (clock (invoked cc dur rt)
                              + Z.max 0 (backoffDuration (convOverflow W) cm attempt))
                     (invoked cc dur rt))) as Hc.
    pose proof (TryReconnect_maxRetries (NewClient W) cm
                  (set_clock (clock (invoked cc dur rt)
                              + Z.max 0 (backoffDuration (convOverflow W) cm attempt))
                     (invoked cc dur rt))) as Hm.
    destruct (TryReconnect _ _ _) as [[[newConn e'] cm'] rt''].
    exists cm', rt''. simpl in Hc, Hm. auto.
  - exists cm, (invoked cc dur rt). auto.
Qed.

(* A call whose every invocation fails and that is never cancelled runs the
   body once per attempt left and returns the error of the last one. *)
Lemma loop_always_failing cc (n : nat) :
  doneAt (ctx W) = None ->
  (forall k, exists dur e, invoker W k cc = (dur, Some e)) ->
  forall fuel attempt err cm rt,
    maxRetries cm - attempt = Z.of_nat n ->
    (n <= fuel)%nat ->
    exists err' cm' rt',
      loop W fuel cc attempt err cm rt = Some (err', cm', rt')
      /\ calls rt' = repeat cc n ++ calls rt
      /\ err' = match n with
                | O => err
                | S m => snd (invoker W (List.length (calls rt) + m) cc)
                end.
Proof.
  intros Hnever Hfail.
  induction n as [|n IH]; intros fuel attempt err cm rt Hn Hfuel.
  - exists err, cm, rt. split; [|auto].
    destruct fuel; simpl; destruct (Z.ltb_spec attempt (maxRetries cm)); solve [lia|reflexivity].
  - destruct fuel as [|fuel]; [lia|]. simpl.
    destruct (Z.ltb_spec attempt (maxRetries cm)); [|lia].
    destruct (Hfail (List.length (calls rt))) as (dur & e & Hi).
    destruct (iteration_failing cc attempt err cm rt dur e Hnever Hi)
      as (cm1 & rt1 & Hit & Hcalls & Hmax).
    rewrite Hit.
    destruct (IH fuel (attempt + 1) (Some e) cm1 rt1) as (err' & cm' & rt' & Hl & Hc & He);
      [lia|lia|].
    exists err', cm', rt'. split; [exact Hl|]. split.
    + rewrite Hc, Hcalls. apply repeat_snoc.
    + rewrite He, Hcalls. destruct n as [|m].
      * rewrite Nat.add_0_r, Hi. reflexivity.
      * simpl. f_equal. f_equal. lia.
Qed.

(* Whatever happens, the invocations of one call all go to the connection
   the call was issued on. *)
Lemma loop_invokes_cc fuel cc attempt err cm rt r cm' rt' :
  loop W fuel cc attempt err cm rt = Some (r, cm', rt') ->
  exists n, calls rt' = repeat cc n ++ calls rt.
Proof.
  revert attempt err cm rt.
  induction fuel as [|fuel IH]; intros attempt err cm rt; simpl;
    destruct (attempt <? maxRetries cm); try discriminate;
    try (intros H; injection H as <- <- <-; exists 0%nat; reflexivity).
  assert (Hone : calls (snd (iteration W cc attempt err cm rt)) = calls rt
                 \/ calls (snd (iteration W cc attempt err cm rt)) = cc :: calls rt).
  { unfold iteration. destruct (ctx_Done (ctx W) rt); [auto|].
    unfold invoke. destruct (invoker W _ cc) as [dur [e|]]; [|auto].
    destruct (_ || _); [|auto].
    pose proof (select_calls attempt (backoffDuration (convOverflow W) cm attempt)
                  (set_calls (cc :: calls rt) (tick (Z.of_N dur) rt))) as Hs.
    destruct (select_After_Done _ _ _ _) as [[|] rt2]; [|simpl in *; auto].
    pose proof (TryReconnect_calls (NewClient W) cm rt2) as Ht.
    destruct (TryReconnect _ _ _) as [[[newConn e'] cm2] rt3].
    simpl in *. right. congruence. }
  destruct (iteration W cc attempt err cm rt) as [[[r1|err1] cm1] rt1]; simpl in Hone.
  - intros H; injection H as <- <- <-.
    destruct Hone as [-> | ->]; [exists 0%nat | exists 1%nat]; reflexivity.
  - intros H. destruct (IH _ _ _ _ H) as [n Hn].
    destruct Hone as [Hone | Hone]; rewrite Hone in Hn.
    + exists n. exact Hn.
    + exists (S n). rewrite Hn. apply repeat_snoc.
Qed.

(** C2: when every invocation of a call fails with a transient error and
    its context is never cancelled, retryInterceptor invokes exactly
    cm.maxRetries times, always on cc, and returns what the last invocation
    returned (nil when maxRetries is 0 and nothing was invoked). *)
Theorem transient_failures_exhaust_retries (cm : ConnectionManager)
  (cc : option Handle) (rt : Runtime) :
  (forall k, exists dur e, invoker W k cc = (dur, Some e) /\ transient e) ->
  doneAt (ctx W) = None ->
  0 <= maxRetries cm ->
  exists err cm' rt',
    retryInterceptor W cm cc rt = Some (err, cm', rt')
    /\ calls rt' = repeat cc (Z.to_nat (maxRetries cm)) ++ calls rt
    /\ Z.of_nat (List.length (calls rt'))
       = Z.of_nat (List.length (calls rt)) + maxRetries cm
    /\ (0 < maxRetries cm ->
        err = snd (invoker W (List.length (calls rt') - 1) cc)
        /\ exists e, err = Some e /\ transient e)
    /\ (maxRetries cm = 0 -> err = None).
Proof.
  intros Hfail Hnever Hpos.
  destruct (loop_always_failing cc (Z.to_nat (maxRetries cm)) Hnever) with
    (fuel := Z.to_nat (maxRetries cm)) (attempt := 0) (err := @None error)
    (cm := cm) (rt := rt) as (err & cm' & rt' & Hl & Hc & He); [| lia | lia |].
  { intros k. destruct (Hfail k) as (dur & e & Hi & _). eauto. }
  exists err, cm', rt'. split; [exact Hl|]. split; [exact Hc|].
  assert (Hlen : List.length (calls rt')
                 = (Z.to_nat (maxRetries cm) + List.length (calls rt))%nat).
  { rewrite Hc, length_app, repeat_length. reflexivity. }
  split; [lia|]. split.
  - intros Hgt. destruct (Z.to_nat (maxRetries cm)) as [|m] eqn:Hm; [lia|].
    assert (Hidx : (List.length (calls rt') - 1 = List.length (calls rt) + m)%nat) by lia.
    rewrite Hidx. split; [exact He|].
    destruct (Hfail (List.length (calls rt) + m)%nat) as (dur & e & Hi & Ht).
    exists e. rewrite He, Hi. auto.
  - intros Hz. rewrite Hz in He. exact He.
Qed.

(** C4: in any pass through the retry loop, (1) if the context is already
    done when the pass begins, the interceptor returns the context's error
    and invokes nothing; (2) if the invocation fails with a transient error
    and the context becomes done during the backoff wait that follows, the
    interceptor returns the context's error, not the transient one, and that
    invocation was the last. *)
Theorem cancellation_preempts_retry (fuel : nat) (cc : option Handle)
  (attempt : Z) (err : option error) (cm : ConnectionManager) (rt : Runtime) :
  attempt < maxRetries cm ->
  (ctx_Done (ctx W) rt = true ->
   loop W (S fuel) cc attempt err cm rt = Some (Some (cause (ctx W)), cm, rt))
  /\ (forall dur e t,
      ctx_Done (ctx W) rt = false ->
      invoker W (List.length (calls rt)) cc = (dur, Some e) ->
      transient e ->
      doneAt (ctx W) = Some t ->
      clock rt + Z.of_N dur <= t
        < clock rt + Z.of_N dur + backoffDuration (convOverflow W) cm attempt ->
      loop W (S fuel) cc attempt err cm rt
      = Some (Some (cause (ctx W)), cm, set_clock t (invoked cc dur rt))
      /\ calls (set_clock t (invoked cc dur rt)) = cc :: calls rt).
Proof.
  intros Hlt. split.
  - intros Hd. simpl. destruct (Z.ltb_spec attempt (maxRetries cm)); [|lia].
    rewrite iteration_done by assumption. reflexivity.
  - intros dur e t Hd Hi Ht Hat Hwait. split; [|reflexivity].
    simpl. destruct (Z.ltb_spec attempt (maxRetries cm)); [|lia].
    assert (Hclock : clock (invoked cc dur rt) = clock rt + Z.of_N dur) by reflexivity.
    rewrite (iteration_cancelled_wait cc attempt err cm rt dur e
               (set_clock t (invoked cc dur rt))); try assumption.
    + unfold ctx_Err, ctx_Done. rewrite Hat. simpl.
      rewrite Z.leb_refl. reflexivity.
    + rewrite (select_done_first attempt _ _ t Hat) by (rewrite Hclock; lia).
      rewrite Hclock, Z.max_r by lia. reflexivity.
Qed.

(** C9 (amended): when an invocation fails with a transient error, the
    backoff wait runs to its end and TryReconnect() then returns an error,
    the pass still ends at the post statement with err the invocation's
    error: before the final attempt the loop goes on with the next attempt,
    and on the final attempt the interceptor returns the invocation's error,
    so the reconnection error is never returned to the caller. *)
Theorem reconnect_failure_never_surfaces (fuel : nat) (cc : option Handle)
  (attempt : Z) (err : option error) (cm : ConnectionManager) (rt rt' : Runtime)
  (dur : N) (e reErr : error) :
  attempt < maxRetries cm ->
  ctx_Done (ctx W) rt = false ->
  invoker W (List.length (calls rt)) cc = (dur, Some e) ->
  transient e ->
  select_After_Done W attempt (backoffDuration (convOverflow W) cm attempt)
    (invoked cc dur rt) = (TimerFired, rt') ->
  snd (fst (fst (TryReconnect (NewClient W) cm rt'))) = Some reErr ->
  iteration W cc attempt err cm rt
  = (Next (Some e), cm, set_dialed (S (dialed rt')) rt')
  /\ loop W (S fuel) cc attempt err cm rt
     = loop W fuel cc (attempt + 1) (Some e) cm (set_dialed (S (dialed rt')) rt')
  /\ (attempt + 1 = maxRetries cm ->
      loop W (S fuel) cc attempt err cm rt
      = Some (Some e, cm, set_dialed (S (dialed rt')) rt')).
Proof.
  intros Hlt Hd Hi Ht Hs Hre.
  assert (Htry : TryReconnect (NewClient W) cm rt'
                 = ((connection (connection1 cm), Some reErr), cm,
                    set_dialed (S (dialed rt')) rt')).
  { revert Hre. unfold TryReconnect.
    destruct (minConnectionAge <=? _); [|discriminate].
    unfold connect. destruct (NewClient W (dialed rt')) as [grpcErr|].
    - simpl. intros [= ->]. reflexivity.
    - destruct (SetConnection _ _ _ _). discriminate. }
  assert (Hit : iteration W cc attempt err cm rt
                = (Next (Some e), cm, set_dialed (S (dialed rt')) rt')).
  { rewrite (iteration_retried cc attempt err cm rt dur e rt') by assumption.
    rewrite Htry. reflexivity. }
  assert (Hloop : loop W (S fuel) cc attempt err cm rt
                  = loop W fuel cc (attempt + 1) (Some e) cm
                      (set_dialed (S (dialed rt')) rt')).
  { simpl. destruct (Z.ltb_spec attempt (maxRetries cm)); [|lia].
    rewrite Hit. reflexivity. }
  split; [exact Hit|]. split; [exact Hloop|].
  intros Hlast. rewrite Hloop.
  destruct fuel; simpl; destruct (Z.ltb_spec (attempt + 1) (maxRetries cm));
    solve [lia|reflexivity].
Qed.

End InterceptorFacts.

(** ** The grace period *)

Section GracePeriod.

Variable NewClient : nat -> option error.

(* What connect() does to the fields the closing of handles depends on. *)
Lemma connect_effect cm rt err cm' rt' :
  connect NewClient cm rt = (err, cm', rt') ->
  clock rt' = clock rt /\ closed rt' = closed rt /\ dialed rt' = S (dialed rt)
  /\ ((active cm' = active cm /\ sleepers rt' = sleepers rt)
      \/ (err = None /\ active cm' = Some (dialed rt)
          /\ sleepers rt' = match active cm with
                            | Some old => (clock rt + gracePeriod, old) :: sleepers rt
                            | None => sleepers rt
                            end)).
Proof.
  unfold connect, SetConnection, active.
  destruct (NewClient (dialed rt)) as [grpcErr|].
  - intros [= <- <- <-]. simpl. repeat (split; [reflexivity|]). auto.
  - destruct (connection (connection1 cm)) as [old|];
      intros [= <- <- <-]; simpl; repeat (split; [reflexivity|]); auto.
Qed.

(* GetConnection() and TryReconnect() either leave everything as it is or
   do what connect() does. *)
Lemma GetConnection_effect cm rt r cm' rt' :
  GetConnection NewClient cm rt = (r, cm', rt') ->
  (cm', rt') = (cm, rt)
  \/ exists err, connect NewClient cm rt = (err, cm', rt').
Proof.
  unfold GetConnection. destruct (IsExpired _ _).
  - destruct (connect NewClient cm rt) as [[err cm1] rt1].
    intros [= <- <- <-]. eauto.
  - intros [= <- <- <-]. auto.
Qed.

Lemma TryReconnect_effect cm rt r cm' rt' :
  TryReconnect NewClient cm rt = (r, cm', rt') ->
  (cm', rt') = (cm, rt)
  \/ exists err, connect NewClient cm rt = (err, cm', rt').
Proof.
  unfold TryReconnect. destruct (minConnectionAge <=? _).
  - destruct (connect NewClient cm rt) as [[[e|] cm1] rt1];
      intros [= <- <- <-]; eauto.
  - intros [= <- <- <-]. auto.
Qed.

Lemma Close_effect cm rt cm' rt' :
  ConnectionManager_Close cm rt = Ret (cm', rt') ->
  exists h, active cm = Some h /\ active cm' = None
    /\ rt' = set_closed (h :: closed rt) rt.
Proof.
  unfold ConnectionManager_Close, Connection_Close, active.
  destruct (connection (connection1 cm)) as [h|]; [|discriminate].
  intros [= <- <-]. exists h. auto.
Qed.

Lemma step_clock s s' : step NewClient s s' -> clock (snd s) <= clock (snd s').
Proof.
  intros H. destruct H as [cm rt d Hd | cm rt rt' Hw | cm rt cc
                          | cm rt r cm' rt' Hg
                          | cm rt r cm' rt' Ht | cm rt cm' rt' Hc]; simpl.
  - lia.
  - destruct Hw. simpl. lia.
  - lia.
  - destruct (GetConnection_effect _ _ _ _ _ Hg) as [[= -> ->] | [err He]]; [lia|].
    apply connect_effect in He. lia.
  - destruct (TryReconnect_effect _ _ _ _ _ Ht) as [[= -> ->] | [err He]]; [lia|].
    apply connect_effect in He. lia.
  - destruct (Close_effect _ _ _ _ Hc) as (h & _ & _ & ->). simpl. lia.
Qed.

Lemma steps_one s s' : step NewClient s s' -> steps NewClient s s'.
Proof. intros H. econstructor; [exact H | constructor]. Qed.

Lemma steps_trans s1 s2 s3 :
  steps NewClient s1 s2 -> steps NewClient s2 s3 -> steps NewClient s1 s3.
Proof.
  induction 1 as [s | s s' s2 Hstep _ IH]; [auto|].
  intros H. econstructor; [exact Hstep | exact (IH H)].
Qed.

Lemma steps_clock s s' : steps NewClient s s' -> clock (snd s) <= clock (snd s').
Proof.
  induction 1 as [s | s s1 s' Hstep _ IH]; [lia|].
  apply step_clock in Hstep. lia.
Qed.

Lemma connect_well_formed cm rt err cm' rt' :
  connect NewClient cm rt = (err, cm', rt') ->
  well_formed cm rt -> well_formed cm' rt'.
Proof.
  intros He (HA & HB & HC).
  destruct (connect_effect _ _ _ _ _ He) as (_ & Hcl & Hdi & Hcases).
  unfold well_formed. rewrite Hcl, Hdi.
  destruct Hcases as [[Hact Hsl] | (_ & Hact & Hsl)]; rewrite Hact, Hsl.
  - split; [|split].
    + intros h Hh. destruct (HA h Hh) as (H1 & H2 & H3). auto.
    + intros t h Hin. apply HB in Hin. lia.
    + intros h Hin. apply HC in Hin. lia.
  - assert (Hsleep : forall t h,
              In (t, h) match active cm with
                        | Some old => (clock rt + gracePeriod, old) :: sleepers rt
                        | None => sleepers rt
                        end -> (h < dialed rt)%nat).
    { intros t h. destruct (active cm) as [old|] eqn:Hold; [|apply HB].
      intros [[= _ <-] | Hin]; [apply (HA old eq_refl) | apply (HB _ _ Hin)]. }
    split; [|split].
    + intros h [= <-]. split; [lia|]. split.
      * intros Hin. apply HC in Hin. lia.
      * intros t Hin. apply Hsleep in Hin. lia.
    + intros t h Hin. apply Hsleep in Hin. lia.
    + intros h Hin. apply HC in Hin. lia.
Qed.

Lemma step_well_formed cm rt cm' rt' :
  step NewClient (cm, rt) (cm', rt') -> well_formed cm rt -> well_formed cm' rt'.
Proof.
  intros Hstep Hwf.
  inversion Hstep as [cm0 rt0 d Hd | cm0 rt0 rt0' Hw | cm0 rt0 cc
                     | cm0 rt0 r cm0' rt0' Hg
                     | cm0 rt0 r cm0' rt0' Ht | cm0 rt0 cm0' rt0' Hc]; subst.
  - exact Hwf.
  - destruct Hwf as (HA & HB & HC).
    inversion Hw as [rt0 l1 t h l2 Hsl Hle]; subst.
    assert (Hsub : forall t' h', In (t', h') (l1 ++ l2) -> In (t', h') (sleepers rt)).
    { intros t' h' Hin. rewrite Hsl. apply in_app_or in Hin.
      apply in_or_app. destruct Hin; [left|right; right]; assumption. }
    assert (Hh : In (t, h) (sleepers rt)).
    { rewrite Hsl. apply in_or_app. right. left. reflexivity. }
    unfold well_formed. simpl. split; [|split].
    + intros a Ha. destruct (HA a Ha) as (H1 & H2 & H3).
      split; [exact H1|]. split.
      * intros [<- | Hin]; [exact (H3 _ Hh) | exact (H2 Hin)].
      * intros t' Hin. exact (H3 _ (Hsub _ _ Hin)).
    + intros t' h' Hin. exact (HB _ _ (Hsub _ _ Hin)).
    + intros h' [<- | Hin]; [exact (HB _ _ Hh) | exact (HC _ Hin)].
  - exact Hwf.
  - destruct (GetConnection_effect _ _ _ _ _ Hg) as [[= -> ->] | [err He]];
      [exact Hwf | exact (connect_well_formed _ _ _ _ _ He Hwf)].
  - destruct (TryReconnect_effect _ _ _ _ _ Ht) as [[= -> ->] | [err He]];
      [exact Hwf | exact (connect_well_formed _ _ _ _ _ He Hwf)].
  - destruct (Close_effect _ _ _ _ Hc) as (h & Hact & Hact' & ->).
    destruct Hwf as (HA & HB & HC). unfold well_formed. simpl.
    rewrite Hact'. split; [discriminate|]. split; [exact HB|].
    intros h' [<- | Hin]; [apply (HA h Hact) | exact (HC _ Hin)].
Qed.

Lemma steps_well_formed s s' :
  steps NewClient s s' -> well_formed (fst s) (snd s) -> well_formed (fst s') (snd s').
Proof.
  induction 1 as [s | [cm rt] [cm1 rt1] s' Hstep _ IH]; [auto|].
  intros Hwf. apply IH. exact (step_well_formed _ _ _ _ Hstep Hwf).
Qed.

Lemma New_well_formed name age retries logger t :
  well_formed (New name age retries logger) (boot t).
Proof.
  unfold well_formed, active. simpl. split; [discriminate|]. split; intros; contradiction.
Qed.

Lemma connect_superseded old since cm rt err cm' rt' :
  connect NewClient cm rt = (err, cm', rt') ->
  superseded old since cm rt -> superseded old since cm' rt'.
Proof.
  intros He (HA & HB & HC & HD).
  destruct (connect_effect _ _ _ _ _ He) as (_ & Hcl & Hdi & Hcases).
  unfold superseded. rewrite Hcl, Hdi.
  destruct Hcases as [[Hact Hsl] | (_ & Hact & Hsl)]; rewrite Hact, Hsl.
  - repeat split; auto.
  - split; [intros [= Heq]; lia|]. split; [exact HB|]. split; [lia|].
    intros t. destruct (active cm) as [h|]; [|apply HD].
    intros [[= _ Heq] | Hin]; [congruence | exact (HD _ Hin)].
Qed.

(* While the grace period runs, nothing that happens closes the handle. *)
Lemma step_superseded old since cm rt cm' rt' :
  step NewClient (cm, rt) (cm', rt') ->
  clock rt < since + gracePeriod ->
  superseded old since cm rt -> superseded old since cm' rt'.
Proof.
  intros Hstep Hclock Hsup.
  inversion Hstep as [cm0 rt0 d Hd | cm0 rt0 rt0' Hw | cm0 rt0 cc
                     | cm0 rt0 r cm0' rt0' Hg
                     | cm0 rt0 r cm0' rt0' Ht | cm0 rt0 cm0' rt0' Hc]; subst.
  - exact Hsup.
  - destruct Hsup as (HA & HB & HC & HD).
    inversion Hw as [rt0 l1 t h l2 Hsl Hle]; subst.
    unfold superseded. simpl. split; [exact HA|]. split; [|split; [exact HC|]].
    + intros [<- | Hin]; [|exact (HB Hin)].
      assert (Hin : In (t, h) (sleepers rt)).
      { rewrite Hsl. apply in_or_app. right. left. reflexivity. }
      apply HD in Hin. lia.
    + intros t' Hin. apply HD. rewrite Hsl. apply in_app_or in Hin.
      apply in_or_app. destruct Hin; [left|right; right]; assumption.
  - exact Hsup.
  - destruct (GetConnection_effect _ _ _ _ _ Hg) as [[= -> ->] | [err He]];
      [exact Hsup | exact (connect_superseded _ _ _ _ _ _ _ He Hsup)].
  - destruct (TryReconnect_effect _ _ _ _ _ Ht) as [[= -> ->] | [err He]];
      [exact Hsup | exact (connect_superseded _ _ _ _ _ _ _ He Hsup)].
  - destruct (Close_effect _ _ _ _ Hc) as (h & Hact & Hact' & ->).
    destruct Hsup as (HA & HB & HC & HD). unfold superseded. simpl.
    rewrite Hact'. split; [discriminate|]. split; [|split; assumption].
    intros [<- | Hin]; [exact (HA Hact) | exact (HB Hin)].
Qed.

Lemma steps_superseded old since s s' :
  steps NewClient s s' ->
  clock (snd s') < since + gracePeriod ->
  superseded old since (fst s) (snd s) -> superseded old since (fst s') (snd s').
Proof.
  induction 1 as [s | [cm rt] [cm1 rt1] s' Hstep Hsteps IH]; [auto|].
  intros Hclock Hsup. apply IH; [exact Hclock|].
  apply steps_clock in Hsteps. simpl in *.
  apply (step_superseded _ _ _ _ _ _ Hstep); [|exact Hsup].
  apply step_clock in Hstep. simpl in Hstep. lia.
Qed.

(* A run of the retry interceptor is made of such steps. *)
Lemma invoked_steps cm cc dur rt :
  steps NewClient (cm, rt) (cm, invoked cc dur rt).
Proof.
  econstructor; [apply (step_tick NewClient cm rt (Z.of_N dur)); lia|].
  apply steps_one. apply (step_invoker NewClient cm (tick (Z.of_N dur) rt) cc).
Qed.

Lemma set_clock_steps cm rt t :
  clock rt <= t -> steps NewClient (cm, rt) (cm, set_clock t rt).
Proof.
  intros H. replace t with (clock rt + (t - clock rt)) by lia.
  apply steps_one. apply (step_tick NewClient cm rt (t - clock rt)). lia.
Qed.

(** C3: take a manager at any point of its life (after New, whatever
    happened since) that holds a handle [old], and a connect() that succeeds
    and so swaps a new handle in.  The swap closes nothing; it leaves a
    goroutine that sleeps until gracePeriod (10 seconds) after the swap
    before it closes [old]; and whatever happens next (time passing,
    goroutines waking, calls going out, GetConnection, TryReconnect, Close),
    [old] is not closed as long as the clock reads less than the swap time
    plus gracePeriod. *)
Theorem superseded_handle_outlives_grace_period
  (name : string) (age : time.Duration) (retries : Z) (logger : bool)
  (boot_time : time.Time) (cm cm1 cm2 : ConnectionManager) (rt rt1 rt2 : Runtime)
  (old : Handle) :
  steps NewClient (New name age retries logger, boot boot_time) (cm, rt) ->
  active cm = Some old ->
  connect NewClient cm rt = (None, cm1, rt1) ->
  steps NewClient (cm1, rt1) (cm2, rt2) ->
  gracePeriod = 10 * time.Second
  /\ closed rt1 = closed rt
  /\ ~ In old (closed rt1)
  /\ sleepers rt1 = (clock rt + gracePeriod, old) :: sleepers rt
  /\ (clock rt2 < clock rt + gracePeriod -> ~ In old (closed rt2)).
Proof.
  intros Hreach Hold Hswap Hnext.
  pose proof (steps_well_formed _ _ Hreach (New_well_formed _ _ _ _ _)) as Hwf.
  simpl in Hwf. destruct Hwf as (HA & HB & HC).
  destruct (HA old Hold) as (Hfresh & Hopen & Hnosleep).
  destruct (connect_effect _ _ _ _ _ Hswap) as (Hck & Hcl & Hdi & Hcases).
  assert (Hsl : sleepers rt1 = (clock rt + gracePeriod, old) :: sleepers rt
                /\ active cm1 = Some (dialed rt)).
  { revert Hswap. unfold connect, SetConnection, active in *.
    destruct (NewClient (dialed rt)); [discriminate|].
    rewrite Hold. intros [= <- <-]. auto. }
  destruct Hsl as [Hsl Hact1].
  assert (Hsup : superseded old (clock rt) cm1 rt1).
  { unfold superseded. rewrite Hact1, Hcl, Hdi, Hsl.
    split; [intros [= Heq]; lia|]. split; [exact Hopen|]. split; [lia|].
    intros t [[= <- ] | Hin]; [lia | destruct (Hnosleep _ Hin)]. }
  split; [reflexivity|]. split; [exact Hcl|].
  split; [rewrite Hcl; exact Hopen|]. split; [exact Hsl|].
  intros Hlt.
  apply (steps_superseded old (clock rt)) in Hnext; simpl; [|lia|exact Hsup].
  destruct Hnext as (_ & Hno & _). exact Hno.
Qed.

End GracePeriod.

Section InterceptorSteps.

Variable W : World.

Lemma select_steps cm attempt d rt :
  steps (NewClient W) (cm, rt) (cm, snd (select_After_Done W attempt d rt)).
Proof.
  unfold select_After_Done. destruct (doneAt (ctx W)) as [t|].
  - destruct (_ <? _); [|destruct (_ <? _)]; apply set_clock_steps; lia.
  - apply set_clock_steps. lia.
Qed.

Lemma iteration_steps cc attempt err cm rt :
  steps (NewClient W) (cm, rt)
    (snd (fst (iteration W cc attempt err cm rt)),
     snd (iteration W cc attempt err cm rt)).
Proof.
  unfold iteration. destruct (ctx_Done (ctx W) rt); [constructor|].
  unfold invoke. destruct (invoker W _ cc) as [dur [e|]];
    [|apply invoked_steps].
  fold (invoked cc dur rt). destruct (_ || _); [|apply invoked_steps].
  pose proof (select_steps cm attempt (backoffDuration (convOverflow W) cm attempt)
                (invoked cc dur rt)) as Hs.
  destruct (select_After_Done _ _ _ _) as [[|] rt2]; simpl in Hs.
  - pose proof (step_TryReconnect (NewClient W) cm rt2) as Ht.
    destruct (TryReconnect _ _ _) as [[[newConn e'] cm3] rt3]. simpl.
    eapply steps_trans; [apply invoked_steps|].
    eapply steps_trans; [exact Hs|].
    apply steps_one. eapply Ht. reflexivity.
  - eapply steps_trans; [apply invoked_steps | exact Hs].
Qed.

Lemma loop_steps fuel cc attempt err cm rt r cm' rt' :
  loop W fuel cc attempt err cm rt = Some (r, cm', rt') ->
  steps (NewClient W) (cm, rt) (cm', rt').
Proof.
  revert attempt err cm rt.
  induction fuel as [|fuel IH]; intros attempt err cm rt; simpl;
    destruct (attempt <? maxRetries cm); try discriminate;
    try (intros [= <- <- <-]; constructor).
  pose proof (iteration_steps cc attempt err cm rt) as Hit.
  destruct (iteration W cc attempt err cm rt) as [[[r1|err1] cm1] rt1]; simpl in Hit.
  - intros [= <- <- <-]. exact Hit.
  - intros H. eapply steps_trans; [exact Hit | exact (IH _ _ _ _ H)].
Qed.

End InterceptorSteps.

(** ** The properties at work *)

Lemma IsExpired_spec_witness :
  IsExpired (connection1 (manager 3)) later = true
  /\ IsExpired (fst (SetConnection (Some 1%nat) minConnectionAge
                       (connection1 (manager 3)) later))
               (snd (SetConnection (Some 1%nat) minConnectionAge
                       (connection1 (manager 3)) later)) = false
  /\ IsExpired (NewConnection "svc") later = true.
Proof.
  assert (H : maxDuration (connection1 (manager 3)) <= time.maxDuration
              /\ minConnectionAge <= time.maxDuration
              /\ lastConnection (connection1 (manager 3)) <= clock later
              /\ time.zeroTime <= clock later).
  { vm_compute. repeat split; discriminate. }
  destruct H as (H1 & H2 & H3 & H4).
  destruct (IsExpired_spec (connection1 (manager 3)) later (Some 1%nat)
              minConnectionAge 0 "svc" H1 H2 H3 H4) as (Ha & Hb & _ & Hd).
  split; [apply Ha; vm_compute; discriminate|].
  split; [apply Hb; reflexivity | exact Hd].
Defined.

Lemma TryReconnect_throttled_witness :
  TryReconnect (fun _ => Some refused) (manager 3)
    (tick (3 * time.Second) (boot started))
  = ((Some 0%nat, None), manager 3, tick (3 * time.Second) (boot started)).
Proof.
  apply (TryReconnect_throttled (fun _ => Some refused) (manager 3)
           (tick (3 * time.Second) (boot started)) 0).
  reflexivity.
Defined.

Lemma establishment_failure_keeps_state_witness :
  connect (fun _ => Some refused) (manager 3) later
  = (Some refused, manager 3, set_dialed (S (dialed later)) later)
  /\ GetConnection (fun _ => Some refused) (manager 3) later
     = ((Some 0%nat, Some refused), manager 3, set_dialed (S (dialed later)) later).
Proof.
  destruct (establishment_failure_keeps_state (fun _ => Some refused)
              (manager 3) later refused eq_refl) as (Ha & Hb & _).
  split; [exact Ha | apply Hb; reflexivity].
Defined.

Lemma transient_failures_exhaust_retries_witness :
  exists err cm' rt',
    retryInterceptor (failing None unavailable background) (manager 3)
      (Some 0%nat) later = Some (err, cm', rt')
    /\ Z.of_nat (List.length (calls rt')) = Z.of_nat (List.length (calls later)) + 3
    /\ err = Some unavailable.
Proof.
  destruct (transient_failures_exhaust_retries
              (failing None unavailable background) (manager 3) (Some 0%nat) later)
    as (err & cm' & rt' & Hrun & _ & Hlen & Hlast & _).
  - intros k. exists 5%N, unavailable. split; [reflexivity | right; reflexivity].
  - reflexivity.
  - vm_compute. discriminate.
  - exists err, cm', rt'. split; [exact Hrun|]. split; [exact Hlen|].
    destruct Hlast as [Herr _]; [reflexivity|]. exact Herr.
Defined.

Lemma cancellation_preempts_retry_witness :
  loop (failing None unavailable (mkContext (Some (clock later + 50)) CtxCanceled))
    3 (Some 0%nat) 0 None (manager 3) later
  = Some (Some CtxCanceled, manager 3,
          set_clock (clock later + 50) (invoked (Some 0%nat) 5 later)).
Proof.
  apply (cancellation_preempts_retry
           (failing None unavailable (mkContext (Some (clock later + 50)) CtxCanceled))
           2 (Some 0%nat) 0 None (manager 3) later eq_refl)
    with (e := unavailable).
  - reflexivity.
  - reflexivity.
  - right. reflexivity.
  - reflexivity.
  - vm_compute. split; [discriminate | reflexivity].
Defined.

(** C1 (the code departs from the claim): New("svc", 5s, 3, false) holds
    handle 0, established 16 seconds ago; a call issued on handle 0 fails
    with Unavailable at every invocation.  After the first failure
    TryReconnect() establishes and returns the new handle 1, and the manager
    holds it from then on, yet the second and third invocations are made on
    handle 0 again. *)
Theorem retry_keeps_the_superseded_handle :
  fst (fst (fst (TryReconnect (fun _ => None) (manager 3)
                   (tick (100 * time.Millisecond) (invoked (Some 0%nat) 5 later)))))
  = Some 1%nat
  /\ exists cm' rt',
       retryInterceptor (failing None unavailable background) (manager 3)
         (Some 0%nat) later = Some (Some unavailable, cm', rt')
       /\ active cm' = Some 1%nat
       /\ dialed rt' = 2%nat
       /\ calls rt' = [Some 0%nat; Some 0%nat; Some 0%nat].
Proof.
  split; [reflexivity|].
  eexists; eexists. split; [vm_compute; reflexivity|].
  repeat split.
Qed.

(** C5 (the code departs from the claim): with maxRetries = 3, a call whose
    invocations fail with InvalidArgument, which is not a transient error,
    is invoked three times, without any wait in between, before that error
    is returned. *)
Theorem permanent_error_is_retried :
  ~ transient invalid
  /\ retryInterceptor (failing None invalid background) (manager 3)
       (Some 0%nat) later
     = Some (Some invalid, manager 3,
             set_calls [Some 0%nat; Some 0%nat; Some 0%nat] (tick 15 later)).
Proof.
  split; [intros [H | H]; discriminate H | vm_compute; reflexivity].
Qed.

(** C9, as the claim has it, fails: with maxRetries = 1 the only attempt is
    the final one; its invocation fails with Unavailable, the TryReconnect()
    that follows the backoff wait fails with a dial error, and the
    interceptor returns the Unavailable error, not the dial error. *)
Lemma reconnect_error_lost_on_final_attempt :
  snd (fst (fst (TryReconnect (fun _ => Some refused) (manager 1)
                   (tick (100 * time.Millisecond) (invoked (Some 0%nat) 5 later)))))
  = Some refused
  /\ (exists rt',
        retryInterceptor (failing (Some refused) unavailable background) (manager 1)
          (Some 0%nat) later = Some (Some unavailable, manager 1, rt'))
  /\ Some unavailable <> Some refused.
Proof.
  split; [reflexivity|]. split; [|discriminate].
  eexists. vm_compute. reflexivity.
Qed.

Lemma reconnect_failure_never_surfaces_witness :
  loop (failing (Some refused) unavailable background) 1 (Some 0%nat) 0 None
    (manager 1) later
  = Some (Some unavailable, manager 1,
          set_dialed 2 (tick (100 * time.Millisecond) (invoked (Some 0%nat) 5 later))).
Proof.
  apply (reconnect_failure_never_surfaces
           (failing (Some refused) unavailable background) 0 (Some 0%nat) 0 None
           (manager 1) later
           (tick (100 * time.Millisecond) (invoked (Some 0%nat) 5 later))
           5 unavailable refused).
  - reflexivity.
  - reflexivity.
  - reflexivity.
  - right. reflexivity.
  - reflexivity.
  - reflexivity.
  - reflexivity.
Defined.

Lemma superseded_handle_outlives_grace_period_witness :
  ~ In 0%nat (closed (tick (9 * time.Second)
                        (snd (connect (fun _ => None) (manager 3) later)))).
Proof.
  apply (superseded_handle_outlives_grace_period (fun _ => None)
           "svc" (5 * time.Second) 3 false started
           (manager 3) (snd (fst (connect (fun _ => None) (manager 3) later)))
           (snd (fst (connect (fun _ => None) (manager 3) later)))
           later (snd (connect (fun _ => None) (manager 3) later))
           (tick (9 * time.Second) (snd (connect (fun _ => None) (manager 3) later)))
           0%nat).
  - eapply Relation_Operators.rt1n_trans.
    + apply (step_GetConnection (fun _ => None) _ _ (Some 0%nat, None) (manager 3)
               (snd (GetConnection (fun _ => None)
                       (New "svc" (5 * time.Second) 3 false) (boot started)))).
      reflexivity.
    + eapply Relation_Operators.rt1n_trans; [|apply rt1n_refl].
      apply (step_tick (fun _ => None) (manager 3) _ (16 * time.Second)).
      vm_compute. discriminate.
  - reflexivity.
  - reflexivity.
  - eapply Relation_Operators.rt1n_trans; [|apply rt1n_refl].
    apply step_tick. vm_compute. discriminate.
  - vm_compute. reflexivity.
Defined.

(** * Further properties of the code *)

(** ** Establishing and refreshing *)

Lemma Sub_mono (t t' u : time.Time) :
  t <= t' -> time.Sub t u <= time.Sub t' u.
Proof.
  intros H. unfold time.Sub.
  assert (time.minDuration <= time.maxDuration) by (vm_compute; discriminate).
  destruct (Z.ltb_spec (t - u) time.minDuration);
    destruct (Z.ltb_spec (t' - u) time.minDuration);
    destruct (Z.ltb_spec time.maxDuration (t - u));
    destruct (Z.ltb_spec time.maxDuration (t' - u)); lia.
Qed.

Lemma Sub_reaches (t u : time.Time) (m : time.Duration) :
  time.minDuration <= m <= time.maxDuration ->
  m <= t - u -> m <= time.Sub t u.
Proof.
  intros Hm H. unfold time.Sub.
  destruct (Z.ltb_spec (t - u) time.minDuration); [lia|].
  destruct (Z.ltb_spec time.maxDuration (t - u)); lia.
Qed.

Lemma New_maxConnectionAge name age retries logger :
  maxConnectionAge (New name age retries logger) = Z.max age minConnectionAge.
Proof.
  unfold New. simpl.
  destruct (Z.ltb_spec age minConnectionAge); lia.
Qed.

(* A Connection nothing was ever set on is expired at any time of our era. *)
Lemma NewConnection_expired name rt :
  time.zeroTime <= clock rt -> IsExpired (NewConnection name) rt = true.
Proof.
  intros H. unfold IsExpired, NewConnection. simpl. apply Z.leb_le.
  apply Sub_reaches; [vm_compute; split; discriminate|].
  unfold time.zeroTime in *. lia.
Qed.

Section Establishing.

Variable NewClient : nat -> option error.

Lemma TryReconnect_noop cm rt :
  clock rt - lastConnection (connection1 cm) < minConnectionAge ->
  TryReconnect NewClient cm rt = ((active cm, None), cm, rt).
Proof.
  intros H. unfold TryReconnect, active, Connection_Connection.
  apply (Sub_lt_iff _ _ _ minConnectionAge_int64) in H.
  destruct (Z.leb_spec minConnectionAge
              (time.Sub (clock rt) (lastConnection (connection1 cm)))); [lia|].
  reflexivity.
Qed.

Lemma TryReconnect_dials cm rt :
  minConnectionAge <= time.Sub (clock rt) (lastConnection (connection1 cm)) ->
  TryReconnect NewClient cm rt
  = ((active (snd (fst (connect NewClient cm rt))), fst (fst (connect NewClient cm rt))),
     snd (fst (connect NewClient cm rt)), snd (connect NewClient cm rt)).
Proof.
  intros H. unfold TryReconnect, active, Connection_Connection.
  apply Z.leb_le in H. rewrite H.
  destruct (connect NewClient cm rt) as [[[e|] cm'] rt']; reflexivity.
Qed.

Lemma GetConnection_noop cm rt :
  IsExpired (connection1 cm) rt = false ->
  GetConnection NewClient cm rt = ((active cm, None), cm, rt).
Proof. intros H. unfold GetConnection. rewrite H. reflexivity. Qed.

Lemma GetConnection_dials cm rt :
  IsExpired (connection1 cm) rt = true ->
  GetConnection NewClient cm rt
  = ((active (snd (fst (connect NewClient cm rt))), fst (fst (connect NewClient cm rt))),
     snd (fst (connect NewClient cm rt)), snd (connect NewClient cm rt)).
Proof.
  intros H. unfold GetConnection. rewrite H.
  destruct (connect NewClient cm rt) as [[e cm'] rt']. reflexivity.
Qed.

(* connect() when grpc.NewClient yields a connection. *)
Lemma connect_swaps cm rt :
  NewClient (dialed rt) = None ->
  exists cm' rt',
    connect NewClient cm rt = (None, cm', rt')
    /\ connection1 cm'
       = mkConnection (id (connection1 cm)) (Some (dialed rt)) (clock rt)
           (maxConnectionAge cm)
    /\ maxConnectionAge cm' = maxConnectionAge cm
    /\ clock rt' = clock rt /\ closed rt' = closed rt
    /\ dialed rt' = S (dialed rt) /\ calls rt' = calls rt
    /\ sleepers rt' = match active cm with
                      | Some old => (clock rt + gracePeriod, old) :: sleepers rt
                      | None => sleepers rt
                      end.
Proof.
  intros H. unfold connect, SetConnection, active. rewrite H.
  destruct (connection (connection1 cm)); eexists; eexists;
    (split; [reflexivity|]); simpl; repeat split; reflexivity.
Qed.

(** X1: New raises the connection age it is given to minConnectionAge
    (15 seconds); the first GetConnection() of a manager dials, and when the
    dial succeeds it returns the new handle, which every GetConnection()
    made less than max(age, 15s) later returns again without dialing; from
    that age on the manager reports that it should reconnect. *)
Theorem fresh_handle_is_served_until_it_expires
  (name : string) (age : time.Duration) (retries : Z) (logger : bool)
  (rt : Runtime) :
  age <= time.maxDuration ->
  time.zeroTime <= clock rt ->
  NewClient (dialed rt) = None ->
  maxConnectionAge (New name age retries logger) = Z.max age minConnectionAge
  /\ exists cm1 rt1,
      GetConnection NewClient (New name age retries logger) rt
      = ((Some (dialed rt), None), cm1, rt1)
      /\ forall d, 0 <= d ->
           (d < Z.max age minConnectionAge ->
            GetConnection NewClient cm1 (tick d rt1)
            = ((Some (dialed rt), None), cm1, tick d rt1))
           /\ (Z.max age minConnectionAge <= d ->
               ShouldReconnect cm1 (tick d rt1) = true).
Proof.
  intros Hage Hzero Hdial.
  split; [apply New_maxConnectionAge|].
  destruct (connect_swaps (New name age retries logger) rt Hdial)
    as (cm1 & rt1 & Hc & Hconn & _ & Hck & _).
  exists cm1, rt1. split.
  - rewrite GetConnection_dials by (apply NewConnection_expired; exact Hzero).
    rewrite Hc. unfold active. simpl. rewrite Hconn. reflexivity.
  - intros d Hd.
    assert (Hmax : Z.max age minConnectionAge <= time.maxDuration).
    { pose proof minConnectionAge_int64. lia. }
    assert (Hexp : IsExpired (connection1 cm1) (tick d rt1) = true
                   <-> Z.max age minConnectionAge <= d).
    { rewrite New_maxConnectionAge in Hconn.
      unfold IsExpired. rewrite Hconn.
      cbn [maxDuration lastConnection tick set_clock clock].
      rewrite Hck, Z.leb_le, Sub_ge_iff by lia. lia. }
    split.
    + intros Hlt. rewrite GetConnection_noop.
      * unfold active. rewrite Hconn. reflexivity.
      * apply not_true_is_false. rewrite Hexp. lia.
    + intros Hge. unfold ShouldReconnect. apply Hexp. exact Hge.
Qed.

(** X3: Close() closes the handle held and leaves the manager without one,
    the time of the last establishment untouched.  A GetConnection() that
    follows while that establishment has not expired returns a nil
    connection and a nil error and dials nothing; once it has expired,
    GetConnection() dials, and a successful dial installs the fresh handle
    without leaving any goroutine behind, as there is no old handle. *)
Theorem GetConnection_after_Close (cm cm' : ConnectionManager)
  (rt rt' : Runtime) :
  ConnectionManager_Close cm rt = Ret (cm', rt') ->
  (exists h, active cm = Some h /\ closed rt' = h :: closed rt)
  /\ active cm' = None
  /\ lastConnection (connection1 cm') = lastConnection (connection1 cm)
  /\ sleepers rt' = sleepers rt
  /\ (forall d, 0 <= d ->
        ShouldReconnect cm' (tick d rt') = false ->
        GetConnection NewClient cm' (tick d rt')
        = ((None, None), cm', tick d rt'))
  /\ (forall d, 0 <= d ->
        ShouldReconnect cm' (tick d rt') = true ->
        NewClient (dialed rt') = None ->
        exists cm2 rt2,
          GetConnection NewClient cm' (tick d rt')
          = ((Some (dialed rt'), None), cm2, rt2)
          /\ sleepers rt2 = sleepers rt' /\ closed rt2 = closed rt').
Proof.
  unfold ConnectionManager_Close, Connection_Close.
  destruct (connection (connection1 cm)) as [h|] eqn:Hh; [|discriminate].
  intros [= <- <-].
  split; [exists h; split; [exact Hh | reflexivity]|].
  split; [reflexivity|]. split; [reflexivity|]. split; [reflexivity|]. split.
  - intros d Hd Hexp. rewrite GetConnection_noop by exact Hexp. reflexivity.
  - intros d Hd Hexp Hdial.
    rewrite GetConnection_dials by exact Hexp.
    match goal with |- context [connect NewClient ?c ?r] =>
      destruct (connect_swaps c r Hdial)
        as (cm2 & rt2 & Hc & Hconn & _ & _ & Hcl & _ & _ & Hsl) end.
    exists cm2, rt2. rewrite Hc. unfold active. simpl. rewrite Hconn. simpl.
    split; [reflexivity|]. split; [exact Hsl | exact Hcl].
Qed.

(** X4: a failed dial does not count as an establishment.  When
    minConnectionAge has passed since the last establishment and
    grpc.NewClient fails, TryReconnect() returns the handle held before next
    to the error and leaves lastConnection alone, so the next
    TryReconnect(), however soon it comes, dials again: failing dials are
    not throttled. *)
Theorem failed_reconnects_are_not_throttled (cm : ConnectionManager)
  (rt : Runtime) (grpcErr : error) (d : time.Duration) :
  minConnectionAge <= clock rt - lastConnection (connection1 cm) ->
  NewClient (dialed rt) = Some grpcErr ->
  0 <= d ->
  TryReconnect NewClient cm rt
  = ((active cm, Some grpcErr), cm, set_dialed (S (dialed rt)) rt)
  /\ dialed (snd (TryReconnect NewClient cm
                    (tick d (set_dialed (S (dialed rt)) rt))))
     = S (S (dialed rt)).
Proof.
  intros Hold Hfail Hd.
  assert (Hnow : minConnectionAge
                 <= time.Sub (clock rt) (lastConnection (connection1 cm))).
  { apply Sub_reaches; [|exact Hold]. pose proof minConnectionAge_int64. lia. }
  split.
  - rewrite TryReconnect_dials by exact Hnow.
    rewrite (connect_fails NewClient _ _ _ Hfail). reflexivity.
  - rewrite TryReconnect_dials.
    + unfold connect. simpl. destruct (NewClient (S (dialed rt))); [reflexivity|].
      unfold SetConnection. destruct (connection (connection1 cm)); reflexivity.
    + simpl. etransitivity; [exact Hnow|]. apply Sub_mono. lia.
Qed.

(** X5: a successful establishment throttles the reconnections that
    follow.  After a connect() that succeeded, every TryReconnect() made
    less than minConnectionAge (15 seconds) later dials nothing, changes
    nothing and returns the handle that connect() installed. *)
Theorem successful_establishment_throttles_reconnects
  (cm cm1 : ConnectionManager) (rt rt1 : Runtime) (d : time.Duration) :
  connect NewClient cm rt = (None, cm1, rt1) ->
  0 <= d < minConnectionAge ->
  TryReconnect NewClient cm1 (tick d rt1)
  = ((Some (dialed rt), None), cm1, tick d rt1).
Proof.
  intros Hc Hd.
  assert (Hok : NewClient (dialed rt) = None).
  { revert Hc. unfold connect. destruct (NewClient (dialed rt)); [discriminate|].
    reflexivity. }
  destruct (connect_swaps cm rt Hok) as (cm' & rt' & Hc' & Hconn & _ & Hck & _).
  rewrite Hc in Hc'. injection Hc' as <- <-.
  rewrite TryReconnect_noop.
  - unfold active. rewrite Hconn. reflexivity.
  - rewrite Hconn. simpl. lia.
Qed.

End Establishing.

(** ** Handles over the life of a manager *)

Section Handles.

Variable NewClient : nat -> option error.

Lemma no_sleeper_not_in_map (h : Handle) (l : list (time.Time * Handle)) :
  (forall t, ~ In (t, h) l) -> ~ In h (map snd l).
Proof.
  intros H Hin. apply in_map_iff in Hin. destruct Hin as ([t h'] & Heq & Hin).
  simpl in Heq. subst h'. exact (H t Hin).
Qed.

Lemma connect_closes_once cm rt err cm' rt' :
  connect NewClient cm rt = (err, cm', rt') ->
  well_formed cm rt -> closes_once rt -> closes_once rt'.
Proof.
  intros He (HA & _ & _) (H1 & H2 & H3).
  destruct (connect_effect _ _ _ _ _ _ He) as (_ & Hcl & _ & Hcases).
  unfold closes_once. rewrite Hcl.
  destruct Hcases as [[_ Hsl] | (_ & _ & Hsl)]; rewrite Hsl.
  - auto.
  - destruct (active cm) as [old|] eqn:Hold; [|auto].
    destruct (HA old eq_refl) as (_ & Hopen & Hnone).
    split; [exact H1|]. split.
    + simpl. constructor; [apply no_sleeper_not_in_map; exact Hnone | exact H2].
    + intros t h [[= _ <-] | Hin]; [exact Hopen | exact (H3 _ _ Hin)].
Qed.

Lemma step_closes_once cm rt cm' rt' :
  step NewClient (cm, rt) (cm', rt') ->
  well_formed cm rt -> closes_once rt -> closes_once rt'.
Proof.
  intros Hstep Hwf Hco.
  inversion Hstep as [cm0 rt0 d Hd | cm0 rt0 rt0' Hw | cm0 rt0 cc
                     | cm0 rt0 r cm0' rt0' Hg
                     | cm0 rt0 r cm0' rt0' Ht | cm0 rt0 cm0' rt0' Hc]; subst.
  - exact Hco.
  - destruct Hco as (H1 & H2 & H3).
    inversion Hw as [rt0 l1 t h l2 Hsl Hle]; subst.
    rewrite Hsl, map_app in H2. simpl in H2.
    assert (Hh : In (t, h) (sleepers rt)).
    { rewrite Hsl. apply in_or_app. right. left. reflexivity. }
    unfold closes_once. simpl. split; [|split].
    + constructor; [exact (H3 _ _ Hh) | exact H1].
    + rewrite map_app. exact (NoDup_remove_1 _ _ _ H2).
    + intros t' h' Hin [<- | Hcl].
      * apply (NoDup_remove_2 _ _ _ H2). rewrite <- map_app.
        apply in_map_iff. exists (t', h). auto.
      * apply (H3 t' h'); [|exact Hcl]. rewrite Hsl. apply in_app_or in Hin.
        apply in_or_app. destruct Hin; [left|right; right]; assumption.
  - exact Hco.
  - destruct (GetConnection_effect _ _ _ _ _ _ Hg) as [[= -> ->] | [err He]];
      [exact Hco | exact (connect_closes_once _ _ _ _ _ He Hwf Hco)].
  - destruct (TryReconnect_effect _ _ _ _ _ _ Ht) as [[= -> ->] | [err He]];
      [exact Hco | exact (connect_closes_once _ _ _ _ _ He Hwf Hco)].
  - destruct (Close_effect _ _ _ _ Hc) as (h & Hact & _ & ->).
    destruct Hwf as (HA & _ & _). destruct (HA h Hact) as (_ & Hopen & Hnone).
    destruct Hco as (H1 & H2 & H3). unfold closes_once. simpl.
    split; [constructor; assumption|]. split; [exact H2|].
    intros t h' Hin [<- | Hcl]; [exact (Hnone _ Hin) | exact (H3 _ _ Hin Hcl)].
Qed.

Lemma steps_closes_once s s' :
  steps NewClient s s' ->
  well_formed (fst s) (snd s) -> closes_once (snd s) ->
  well_formed (fst s') (snd s') /\ closes_once (snd s').
Proof.
  induction 1 as [s | [cm rt] [cm1 rt1] s' Hstep _ IH]; [auto|].
  intros Hwf Hco. apply IH.
  - exact (step_well_formed _ _ _ _ _ Hstep Hwf).
  - exact (step_closes_once _ _ _ _ Hstep Hwf Hco).
Qed.

(** X7: over the whole life of a manager (from New on, whatever passes:
    time, goroutines waking, calls going out, GetConnection, TryReconnect,
    Close), no handle is closed twice, no handle is awaited by two closing
    goroutines, and no goroutine waits to close a handle that is closed
    already. *)
Theorem handles_are_closed_at_most_once
  (name : string) (age : time.Duration) (retries : Z) (logger : bool)
  (boot_time : time.Time) (cm : ConnectionManager) (rt : Runtime) :
  steps NewClient (New name age retries logger, boot boot_time) (cm, rt) ->
  NoDup (closed rt)
  /\ NoDup (map snd (sleepers rt))
  /\ (forall t h, In (t, h) (sleepers rt) -> ~ In h (closed rt)).
Proof.
  intros Hreach.
  apply (steps_closes_once _ _ Hreach).
  - apply New_well_formed.
  - unfold closes_once. simpl. split; [constructor|]. split; [constructor|].
    intros t h [].
Qed.

(** X8: at any point of the life of a manager, the connection that
    GetConnection() or TryReconnect() returns, when it is not nil, has not
    been closed and no goroutine is waiting to close it; this holds also
    when the call returns an error next to the handle. *)
Theorem returned_handle_is_open
  (name : string) (age : time.Duration) (retries : Z) (logger : bool)
  (boot_time : time.Time) (cm : ConnectionManager) (rt : Runtime) :
  steps NewClient (New name age retries logger, boot boot_time) (cm, rt) ->
  (forall h err cm' rt',
     GetConnection NewClient cm rt = ((Some h, err), cm', rt') ->
     ~ In h (closed rt') /\ forall t, ~ In (t, h) (sleepers rt'))
  /\ (forall h err cm' rt',
        TryReconnect NewClient cm rt = ((Some h, err), cm', rt') ->
        ~ In h (closed rt') /\ forall t, ~ In (t, h) (sleepers rt')).
Proof.
  intros Hreach.
  pose proof (steps_well_formed _ _ _ Hreach (New_well_formed _ _ _ _ _)) as Hwf.
  simpl in Hwf.
  assert (Hheld : forall h cm' rt',
            well_formed cm' rt' -> active cm' = Some h ->
            ~ In h (closed rt') /\ forall t, ~ In (t, h) (sleepers rt')).
  { intros h cm' rt' (HA & _ & _) Hh. destruct (HA h Hh) as (_ & H2 & H3). auto. }
  split; intros h err cm' rt' Hcall.
  - apply (Hheld h cm').
    + exact (step_well_formed _ _ _ _ _ (step_GetConnection _ _ _ _ _ _ Hcall) Hwf).
    + revert Hcall. unfold GetConnection, active, Connection_Connection.
      destruct (IsExpired _ _).
      * destruct (connect NewClient cm rt) as [[e cm1] rt1].
        intros [= Hh _ <- _]. exact Hh.
      * intros [= Hh _ <- _]. exact Hh.
  - apply (Hheld h cm').
    + exact (step_well_formed _ _ _ _ _ (step_TryReconnect _ _ _ _ _ _ Hcall) Hwf).
    + revert Hcall. unfold TryReconnect, active, Connection_Connection.
      destruct (_ <=? _).
      * destruct (connect NewClient cm rt) as [[[e|] cm1] rt1];
          intros [= Hh _ <- _]; exact Hh.
      * intros [= Hh _ <- _]. exact Hh.
Qed.

End Handles.

(** ** Calls through the retry interceptor *)

Section Calls.

Variable W : World.

Lemma connect_keeps_closed cm rt :
  closed (snd (connect (NewClient W) cm rt)) = closed rt
  /\ clock (snd (connect (NewClient W) cm rt)) = clock rt.
Proof.
  destruct (connect (NewClient W) cm rt) as [[err cm'] rt'] eqn:He.
  apply connect_effect in He. simpl. tauto.
Qed.

Lemma TryReconnect_keeps_closed cm rt :
  closed (snd (TryReconnect (NewClient W) cm rt)) = closed rt
  /\ clock (snd (TryReconnect (NewClient W) cm rt)) = clock rt.
Proof.
  destruct (TryReconnect (NewClient W) cm rt) as [[r cm'] rt'] eqn:Ht.
  destruct (TryReconnect_effect _ _ _ _ _ _ Ht) as [[= -> ->] | [err He]];
    [auto|].
  pose proof (connect_keeps_closed cm rt) as H. rewrite He in H. exact H.
Qed.

Lemma select_keeps_closed attempt d rt :
  closed (snd (select_After_Done W attempt d rt)) = closed rt.
Proof.
  unfold select_After_Done. destruct (doneAt (ctx W)); [|reflexivity].
  destruct (_ <? _); [reflexivity|]. destruct (_ <? _); reflexivity.
Qed.

(* What one pass through the loop body can come to. *)
Lemma iteration_cases cc attempt err cm rt f cm1 rt1 :
  iteration W cc attempt err cm rt = (f, cm1, rt1) ->
  closed rt1 = closed rt
  /\ maxRetries cm1 = maxRetries cm
  /\ ((exists r, f = Returned r
                 /\ (r = None \/ r = Some (cause (ctx W)))
                 /\ (calls rt1 = calls rt \/ calls rt1 = cc :: calls rt))
      \/ (exists e, f = Next (Some e)
                    /\ snd (invoker W (List.length (calls rt)) cc) = Some e
                    /\ calls rt1 = cc :: calls rt)).
Proof.
  intros Hit.
  pose proof (iteration_maxRetries W cc attempt err cm rt) as Hm.
  rewrite Hit in Hm. simpl in Hm.
  assert (Hgoal : closed rt1 = closed rt
    /\ ((exists r, f = Returned r
                   /\ (r = None \/ r = Some (cause (ctx W)))
                   /\ (calls rt1 = calls rt \/ calls rt1 = cc :: calls rt))
        \/ (exists e, f = Next (Some e)
                      /\ snd (invoker W (List.length (calls rt)) cc) = Some e
                      /\ calls rt1 = cc :: calls rt))); [|tauto].
  clear Hm. revert Hit. unfold iteration, ctx_Err.
  destruct (ctx_Done (ctx W) rt) eqn:Hd.
  { intros [= <- <- <-]. split; [reflexivity|]. left. eauto 6. }
  unfold invoke. destruct (invoker W _ cc) as [dur [e|]] eqn:Hi.
  2:{ intros [= <- <- <-]. split; [reflexivity|]. left. eauto 6. }
  destruct (_ || _).
  2:{ intros [= <- <- <-]. split; [reflexivity|]. right. eauto 6. }
  pose proof (select_keeps_closed attempt
                (backoffDuration (convOverflow W) cm attempt)
                (set_calls (cc :: calls rt) (tick (Z.of_N dur) rt))) as Hs.
  pose proof (select_calls W attempt
                (backoffDuration (convOverflow W) cm attempt)
                (set_calls (cc :: calls rt) (tick (Z.of_N dur) rt))) as Hs'.
  destruct (select_After_Done _ _ _ _) as [[|] rt2]; simpl in Hs, Hs'.
  - pose proof (TryReconnect_keeps_closed cm rt2) as [Ht _].
    pose proof (TryReconnect_calls (NewClient W) cm rt2) as Ht'.
    destruct (TryReconnect _ _ _) as [[[newConn e'] cm3] rt3].
    intros [= <- <- <-]. simpl in Ht, Ht'. split; [congruence|].
    right. exists e. split; [reflexivity|]. split; [reflexivity | congruence].
  - intros [= <- <- <-]. split; [exact Hs|]. left.
    exists (if ctx_Done (ctx W) rt2 then Some (cause (ctx W)) else None).
    split; [reflexivity|]. split; [destruct (ctx_Done (ctx W) rt2); auto | auto].
Qed.

(* What a run of the loop can come to. *)
Lemma loop_trace fuel cc attempt err cm rt r cm' rt' :
  loop W fuel cc attempt err cm rt = Some (r, cm', rt') ->
  closed rt' = closed rt
  /\ maxRetries cm' = maxRetries cm
  /\ (exists n, (n <= Z.to_nat (maxRetries cm - attempt))%nat
                /\ calls rt' = repeat cc n ++ calls rt)
  /\ (r = err \/ r = None \/ r = Some (cause (ctx W))
      \/ exists k, (List.length (calls rt) <= k < List.length (calls rt'))%nat
                   /\ r = snd (invoker W k cc)).
Proof.
  revert attempt err cm rt.
  induction fuel as [|fuel IH]; intros attempt err cm rt; simpl;
    destruct (Z.ltb_spec attempt (maxRetries cm)) as [Hlt|Hge]; try discriminate;
    try (intros [= <- <- <-]; repeat split; auto; exists 0%nat; split;
         [lia | reflexivity]).
  destruct (iteration W cc attempt err cm rt) as [[f cm1] rt1] eqn:Hit.
  destruct (iteration_cases _ _ _ _ _ _ _ _ Hit) as (Hcl & Hm & Hcases).
  destruct Hcases as [(r1 & -> & Hr & Hcalls) | (e & -> & He & Hcalls)].
  - intros [= <- <- <-]. split; [exact Hcl|]. split; [exact Hm|]. split.
    + destruct Hcalls as [-> | ->]; [exists 0%nat | exists 1%nat];
        (split; [lia | reflexivity]).
    + destruct Hr as [-> | ->]; auto.
  - intros Hl. destruct (IH _ _ _ _ Hl) as (Hcl' & Hm' & (n & Hn & Hc) & Hr).
    rewrite Hm in Hn.
    assert (Hlen : List.length (calls rt') = (S n + List.length (calls rt))%nat).
    { rewrite Hc, Hcalls, length_app, repeat_length. simpl. lia. }
    split; [congruence|]. split; [congruence|]. split.
    + exists (S n). split; [lia|]. rewrite Hc, Hcalls. apply repeat_snoc.
    + destruct Hr as [-> | [-> | [-> | (k & Hk & ->)]]]; auto.
      * right. right. right. exists (List.length (calls rt)).
        split; [lia | symmetry; exact He].
      * right. right. right. exists k. rewrite Hcalls in Hk. simpl in Hk.
        split; [lia | reflexivity].
Qed.

(** X11: with a retry budget of zero or less the interceptor never calls
    the invoker and returns nil, as if the call had succeeded; New makes
    such a manager from maxRetries = 0 and, the uint being converted to
    int, from any maxRetries of 2^63 or more. *)
Theorem no_budget_means_no_call (cm : ConnectionManager) (cc : option Handle)
  (rt : Runtime) (name : string) (age : time.Duration) (retries : Z)
  (logger : bool) :
  (maxRetries cm <= 0 -> retryInterceptor W cm cc rt = Some (None, cm, rt))
  /\ (retries = 0 \/ 2 ^ 63 <= retries < 2 ^ 64 ->
      maxRetries (New name age retries logger) <= 0)
  /\ (0 <= retries < 2 ^ 63 ->
      maxRetries (New name age retries logger) = retries).
Proof.
  split; [|split].
  - intros H. unfold retryInterceptor.
    replace (Z.to_nat (maxRetries cm)) with 0%nat by lia. simpl.
    destruct (Z.ltb_spec 0 (maxRetries cm)); [lia | reflexivity].
  - unfold New, int_of_uint. cbn [maxRetries]. intros [-> | H]; [discriminate|].
    destruct (Z.ltb_spec retries (2 ^ 63)); lia.
  - unfold New, int_of_uint. cbn [maxRetries]. intros H.
    destruct (Z.ltb_spec retries (2 ^ 63)); lia.
Qed.

(** X12: whatever the invoker, the dials and the context do, one call
    through the interceptor ends, invokes at most cm.maxRetries times, each
    time on the connection the call was issued on, and closes no handle. *)
Theorem invocations_are_bounded_by_maxRetries (cm : ConnectionManager)
  (cc : option Handle) (rt : Runtime) :
  exists r cm' rt' n,
    retryInterceptor W cm cc rt = Some (r, cm', rt')
    /\ (n <= Z.to_nat (maxRetries cm))%nat
    /\ calls rt' = repeat cc n ++ calls rt
    /\ closed rt' = closed rt
    /\ maxRetries cm' = maxRetries cm.
Proof.
  destruct (retryInterceptor_total W cm cc rt) as [[[r cm'] rt'] Hrun].
  destruct (loop_trace _ _ _ _ _ _ _ _ _ Hrun) as (Hcl & Hm & (n & Hn & Hc) & _).
  exists r, cm', rt', n. rewrite Z.sub_0_r in Hn. auto.
Qed.

(** X13: the error a call through the interceptor returns is nil, the
    error of the call's context, or the error one of its own invocations
    returned; no other error is made up or passed on, that of a failed
    reconnection included. *)
Theorem returned_error_comes_from_the_call (cm : ConnectionManager)
  (cc : option Handle) (rt : Runtime) :
  exists r cm' rt',
    retryInterceptor W cm cc rt = Some (r, cm', rt')
    /\ (r = None \/ r = Some (cause (ctx W))
        \/ exists k, (List.length (calls rt) <= k < List.length (calls rt'))%nat
                     /\ r = snd (invoker W k cc)).
Proof.
  destruct (retryInterceptor_total W cm cc rt) as [[[r cm'] rt'] Hrun].
  destruct (loop_trace _ _ _ _ _ _ _ _ _ Hrun) as (_ & _ & _ & Hr).
  exists r, cm', rt'. split; [exact Hrun|]. tauto.
Qed.

End Calls.

Section Retries.

Variable W : World.

(* A pass whose invocation fails with a transient error, in a call that is
   never cancelled: the whole backoff is waited, then TryReconnect() runs. *)
Lemma iteration_backs_off cc attempt err cm rt dur e :
  doneAt (ctx W) = None ->
  invoker W (List.length (calls rt)) cc = (dur, Some e) ->
  transient e ->
  exists cm1 rt1,
    iteration W cc attempt err cm rt = (Next (Some e), cm1, rt1)
    /\ clock rt1 = clock rt + Z.of_N dur
                   + Z.max 0 (backoffDuration (convOverflow W) cm attempt)
    /\ calls rt1 = cc :: calls rt
    /\ maxRetries cm1 = maxRetries cm.
Proof.
  intros Hnever Hi Ht.
  assert (Hd : ctx_Done (ctx W) rt = false)
    by (unfold ctx_Done; rewrite Hnever; reflexivity).
  pose proof (select_never_done W attempt
                (backoffDuration (convOverflow W) cm attempt)
                (invoked cc dur rt) Hnever) as Hs.
  rewrite (iteration_retried W cc attempt err cm rt dur e _ Hd Hi Ht Hs).
  eexists; eexists. split; [reflexivity|].
  destruct (TryReconnect_keeps_closed W cm
              (set_clock (clock (invoked cc dur rt)
                          + Z.max 0 (backoffDuration (convOverflow W) cm attempt))
                 (invoked cc dur rt))) as [_ Hck].
  rewrite Hck, TryReconnect_calls, TryReconnect_maxRetries.
  split; [reflexivity|]. split; reflexivity.
Qed.

Lemma loop_succeeds_after_failures cc (k : nat) :
  doneAt (ctx W) = None ->
  forall fuel attempt err cm rt dur,
    (forall i, (i < k)%nat ->
       exists d e, invoker W (List.length (calls rt) + i) cc = (d, Some e)
                   /\ transient e) ->
    invoker W (List.length (calls rt) + k) cc = (dur, None) ->
    attempt + Z.of_nat k < maxRetries cm ->
    (k < fuel)%nat ->
    exists cm' rt',
      loop W fuel cc attempt err cm rt = Some (None, cm', rt')
      /\ calls rt' = repeat cc (S k) ++ calls rt.
Proof.
  intros Hnever.
  assert (Hd : forall rt, ctx_Done (ctx W) rt = false)
    by (intros rt; unfold ctx_Done; rewrite Hnever; reflexivity).
  induction k as [|k IH]; intros fuel attempt err cm rt dur Hfail Hok Hlt Hfuel;
    (destruct fuel as [|fuel]; [lia|]); simpl;
    (destruct (Z.ltb_spec attempt (maxRetries cm)); [|lia]).
  - rewrite Nat.add_0_r in Hok.
    rewrite (iteration_success W cc attempt err cm rt dur (Hd rt) Hok).
    exists cm, (invoked cc dur rt). split; reflexivity.
  - destruct (Hfail 0%nat) as (d & e & Hi & Ht); [lia|].
    rewrite Nat.add_0_r in Hi.
    destruct (iteration_backs_off cc attempt err cm rt d e Hnever Hi Ht)
      as (cm1 & rt1 & Hit & _ & Hcalls & Hmax).
    rewrite Hit.
    destruct (IH fuel (attempt + 1) (Some e) cm1 rt1 dur) as (cm' & rt' & Hl & Hc).
    + intros i Hi'. destruct (Hfail (S i)) as (d' & e' & Hi'' & Ht'); [lia|].
      exists d', e'. rewrite Hcalls. simpl.
      replace (S (List.length (calls rt) + i))
        with (List.length (calls rt) + S i)%nat by lia. auto.
    + rewrite Hcalls. simpl.
      replace (S (List.length (calls rt) + k))
        with (List.length (calls rt) + S k)%nat by lia. exact Hok.
    + lia.
    + lia.
    + exists cm', rt'. split; [exact Hl|]. rewrite Hc, Hcalls.
      exact (repeat_snoc cc (S k) (calls rt)).
Qed.

(** X14: a retry that succeeds hides the failures before it.  When the
    context is never cancelled, the first k invocations of a call fail with
    transient errors and the next one succeeds, with k below cm.maxRetries,
    the interceptor returns nil after exactly k + 1 invocations. *)
Theorem retry_succeeds_after_transient_failures (cm : ConnectionManager)
  (cc : option Handle) (rt : Runtime) (k : nat) (dur : N) :
  doneAt (ctx W) = None ->
  (forall i, (i < k)%nat ->
     exists d e, invoker W (List.length (calls rt) + i) cc = (d, Some e)
                 /\ transient e) ->
  invoker W (List.length (calls rt) + k) cc = (dur, None) ->
  Z.of_nat k < maxRetries cm ->
  exists cm' rt',
    retryInterceptor W cm cc rt = Some (None, cm', rt')
    /\ calls rt' = repeat cc (S k) ++ calls rt.
Proof.
  intros Hnever Hfail Hok Hlt.
  apply (loop_succeeds_after_failures cc k Hnever _ 0 None cm rt dur);
    try assumption; lia.
Qed.

Lemma loop_next fuel cc attempt err cm rt :
  attempt < maxRetries cm ->
  loop W (S fuel) cc attempt err cm rt
  = match iteration W cc attempt err cm rt with
    | (Returned r, cm, rt) => Some (r, cm, rt)
    | (Next err, cm, rt) => loop W fuel cc (attempt + 1) err cm rt
    end.
Proof.
  intros H. simpl. destruct (Z.ltb_spec attempt (maxRetries cm)); [reflexivity|lia].
Qed.

Lemma loop_waits cc (n : nat) :
  doneAt (ctx W) = None ->
  (forall k, exists dur e, invoker W k cc = (dur, Some e) /\ transient e) ->
  forall fuel attempt err cm rt,
    0 <= attempt ->
    maxRetries cm <= 37 ->
    maxRetries cm - attempt = Z.of_nat n ->
    (n <= fuel)%nat ->
    exists err' cm' rt',
      loop W fuel cc attempt err cm rt = Some (err', cm', rt')
      /\ clock rt + 100 * time.Millisecond * (2 ^ maxRetries cm - 2 ^ attempt)
         <= clock rt'.
Proof.
  intros Hnever Hfail.
  induction n as [|n IH]; intros fuel attempt err cm rt Hatt Hmax Hn Hfuel.
  - exists err, cm, rt. split.
    + destruct fuel; simpl; destruct (Z.ltb_spec attempt (maxRetries cm));
        solve [lia|reflexivity].
    + replace attempt with (maxRetries cm) by lia. lia.
  - destruct fuel as [|fuel]; [lia|].
    destruct (Hfail (List.length (calls rt))) as (dur & e & Hi & Ht).
    destruct (iteration_backs_off cc attempt err cm rt dur e Hnever Hi Ht)
      as (cm1 & rt1 & Hit & Hck & _ & Hm).
    rewrite loop_next by lia. rewrite Hit.
    destruct (IH fuel (attempt + 1) (Some e) cm1 rt1) as (err' & cm' & rt' & Hl & Hw);
      [lia|lia|lia|lia|].
    exists err', cm', rt'. split; [exact Hl|].
    destruct (backoffDuration_exact (convOverflow W) cm attempt) as [Hb Hp]; [lia|].
    rewrite Hm in Hw. rewrite Z.pow_add_r in Hw by lia.
    change (2 ^ 1) with 2 in Hw.
    rewrite Hb in Hck.
    assert (Hpos : 0 < 2 ^ attempt) by (apply Z.pow_pos_nonneg; lia).
    assert (Hbase : 100 * time.Millisecond = 100000000) by reflexivity.
    rewrite Hbase in *. lia.
Qed.

(** X15: a call that uses up its budget has waited the whole schedule.
    When every invocation fails with a transient error and the context is
    never cancelled, with a budget of at most 37, the interceptor returns
    no sooner than 100ms * (2^maxRetries - 1) after it was called: the
    backoff is waited, and TryReconnect() run, also after the last attempt,
    before the error is returned. *)
Theorem exhausted_call_has_waited_every_backoff (cm : ConnectionManager)
  (cc : option Handle) (rt : Runtime) :
  doneAt (ctx W) = None ->
  (forall k, exists dur e, invoker W k cc = (dur, Some e) /\ transient e) ->
  0 <= maxRetries cm <= 37 ->
  exists err cm' rt',
    retryInterceptor W cm cc rt = Some (err, cm', rt')
    /\ clock rt + 100 * time.Millisecond * (2 ^ maxRetries cm - 1) <= clock rt'.
Proof.
  intros Hnever Hfail Hmax.
  destruct (loop_waits cc (Z.to_nat (maxRetries cm)) Hnever Hfail
              (Z.to_nat (maxRetries cm)) 0 None cm rt)
    as (err & cm' & rt' & Hl & Hw); try lia.
  exists err, cm', rt'. split; [exact Hl|].
  change (2 ^ 0) with 1 in Hw. exact Hw.
Qed.

End Retries.

(** ** The further properties at work *)

Lemma manager_later_reachable :
  steps (fun _ => None) (New "svc" (5 * time.Second) 3 false, boot started)
    (manager 3, later).
Proof.
  eapply Relation_Operators.rt1n_trans.
  - apply (step_GetConnection (fun _ => None) _ _ (Some 0%nat, None) (manager 3)
             (snd (GetConnection (fun _ => None)
                     (New "svc" (5 * time.Second) 3 false) (boot started)))).
    reflexivity.
  - eapply Relation_Operators.rt1n_trans; [|apply rt1n_refl].
    apply (step_tick (fun _ => None) (manager 3) _ (16 * time.Second)).
    vm_compute. discriminate.
Defined.

Lemma fresh_handle_is_served_until_it_expires_witness :
  GetConnection (fun _ => None) (manager 3)
    (tick (14 * time.Second)
       (snd (GetConnection (fun _ => None)
               (New "svc" (5 * time.Second) 3 false) (boot started))))
  = ((Some 0%nat, None), manager 3,
     tick (14 * time.Second)
       (snd (GetConnection (fun _ => None)
               (New "svc" (5 * time.Second) 3 false) (boot started)))).
Proof.
  destruct (fresh_handle_is_served_until_it_expires (fun _ => None)
              "svc" (5 * time.Second) 3 false (boot started))
    as (_ & cm1 & rt1 & Hget & Hlater).
  - vm_compute. discriminate.
  - vm_compute. discriminate.
  - reflexivity.
  - injection Hget as <- <-.
    apply (Hlater (14 * time.Second)); [vm_compute; discriminate|reflexivity].
Defined.

Lemma GetConnection_after_Close_witness :
  GetConnection (fun _ => None)
    (set_connection1 (mkConnection "svc" None started minConnectionAge) (manager 3))
    (tick 0 (set_closed [0%nat] (tick (3 * time.Second) (boot started))))
  = ((None, None),
     set_connection1 (mkConnection "svc" None started minConnectionAge) (manager 3),
     tick 0 (set_closed [0%nat] (tick (3 * time.Second) (boot started)))).
Proof.
  destruct (GetConnection_after_Close (fun _ => None) (manager 3)
              (set_connection1 (mkConnection "svc" None started minConnectionAge)
                 (manager 3))
              (tick (3 * time.Second) (boot started))
              (set_closed [0%nat] (tick (3 * time.Second) (boot started))))
    as (_ & _ & _ & _ & Hnil & _).
  - reflexivity.
  - apply (Hnil 0); reflexivity.
Defined.

Lemma failed_reconnects_are_not_throttled_witness :
  TryReconnect (fun _ => Some refused) (manager 3) later
  = ((Some 0%nat, Some refused), manager 3, set_dialed 2 later).
Proof.
  apply (failed_reconnects_are_not_throttled (fun _ => Some refused)
           (manager 3) later refused 0).
  - vm_compute. discriminate.
  - reflexivity.
  - reflexivity.
Defined.

Lemma successful_establishment_throttles_reconnects_witness :
  TryReconnect (fun _ => None)
    (snd (fst (connect (fun _ => None) (manager 3) later)))
    (tick (3 * time.Second) (snd (connect (fun _ => None) (manager 3) later)))
  = ((Some 1%nat, None),
     snd (fst (connect (fun _ => None) (manager 3) later)),
     tick (3 * time.Second) (snd (connect (fun _ => None) (manager 3) later))).
Proof.
  apply (successful_establishment_throttles_reconnects (fun _ => None)
           (manager 3) _ later _ (3 * time.Second)).
  - reflexivity.
  - vm_compute. split; [discriminate | reflexivity].
Defined.

Lemma handles_are_closed_at_most_once_witness :
  NoDup (closed later)
  /\ NoDup (map snd (sleepers later))
  /\ (forall t h, In (t, h) (sleepers later) -> ~ In h (closed later)).
Proof.
  apply (handles_are_closed_at_most_once (fun _ => None)
           "svc" (5 * time.Second) 3 false started (manager 3) later).
  exact manager_later_reachable.
Defined.

Lemma returned_handle_is_open_witness :
  ~ In 1%nat (closed (snd (GetConnection (fun _ => None) (manager 3) later))).
Proof.
  destruct (returned_handle_is_open (fun _ => None)
              "svc" (5 * time.Second) 3 false started (manager 3) later
              manager_later_reachable) as [Hget _].
  apply (Hget 1%nat None
           (snd (fst (GetConnection (fun _ => None) (manager 3) later)))
           (snd (GetConnection (fun _ => None) (manager 3) later))).
  reflexivity.
Defined.

Lemma retry_succeeds_after_transient_failures_witness :
  exists cm' rt',
    retryInterceptor
      (mkWorld (fun _ => None)
         (fun k _ => if (k <? 2)%nat then (5%N, Some unavailable) else (5%N, None))
         background (fun _ => TimerFired) 0)
      (manager 3) (Some 0%nat) later = Some (None, cm', rt')
    /\ calls rt' = repeat (Some 0%nat) 3 ++ calls later.
Proof.
  apply (retry_succeeds_after_transient_failures
           (mkWorld (fun _ => None)
              (fun k _ => if (k <? 2)%nat then (5%N, Some unavailable) else (5%N, None))
              background (fun _ => TimerFired) 0)
           (manager 3) (Some 0%nat) later 2 5).
  - reflexivity.
  - intros i Hi. exists 5%N, unavailable.
    destruct i as [|[|i]]; [| |lia]; (split; [reflexivity | right; reflexivity]).
  - reflexivity.
  - reflexivity.
Defined.

Lemma exhausted_call_has_waited_every_backoff_witness :
  exists err cm' rt',
    retryInterceptor (failing None unavailable background) (manager 3)
      (Some 0%nat) later = Some (err, cm', rt')
    /\ clock later + 100 * time.Millisecond * (2 ^ maxRetries (manager 3) - 1)
       <= clock rt'.
Proof.
  apply (exhausted_call_has_waited_every_backoff
           (failing None unavailable background) (manager 3) (Some 0%nat) later).
  - reflexivity.
  - intros k. exists 5%N, unavailable. split; [reflexivity | right; reflexivity].
  - vm_compute. split; discriminate.
Defined.
